(** * Josetsu: customer records for a snow-removal service

    A shallow embedding of the TypeScript sources
    - [types.ts]            (the [Customer] and [SearchParams] interfaces),
    - [CustomerList.tsx]    (postal-code normalisation, filter and sort),
    - [CustomerMap.tsx]     (display filter, marker synchronisation, popups,
                             route computation),
    - [CustomerForm.tsx]    (geocoding, submission, postal-code lookup),
    - [App.tsx]             (the record store: create and update),
    followed by the properties of the specification, each proved or
    refuted on the embedding. *)

From Stdlib Require Import String Ascii.
From Stdlib Require Import ZArith List Bool Lia Permutation Sorted.
Import ListNotations.

Set Implicit Arguments.

(* ================================================================= *)
(** ** JavaScript values *)

Module JS.

(** A JavaScript string is a sequence of UTF-16 code units. *)
Definition jsstring := list Z.

(** [js "abc"] is the string whose code units are the character codes of
    the (Basic Latin) literal. *)
Definition js (s : string) : jsstring :=
  map (fun c => Z.of_nat (nat_of_ascii c)) (list_ascii_of_string s).

Fixpoint String_eqb (a b : jsstring) : bool :=
  match a, b with
  | [], [] => true
  | x :: a', y :: b' => Z.eqb x y && String_eqb a' b'
  | _, _ => false
  end.

Fixpoint String_startsWith (s prefix : jsstring) : bool :=
  match prefix, s with
  | [], _ => true
  | _ :: _, [] => false
  | p :: prefix', c :: s' => Z.eqb p c && String_startsWith s' prefix'
  end.

(** [s.includes(q)]: [q] occurs in [s] as a contiguous run of code units. *)
Fixpoint String_includes (s q : jsstring) : bool :=
  String_startsWith s q ||
  match s with
  | [] => false
  | _ :: s' => String_includes s' q
  end.

(** [a < b] on two strings: lexicographic order of the code units. *)
Fixpoint String_ltb (a b : jsstring) : bool :=
  match a, b with
  | _, [] => false
  | [], _ :: _ => true
  | x :: a', y :: b' =>
      if Z.ltb x y then true
      else if Z.ltb y x then false
      else String_ltb a' b'
  end.

(** Numbers.  The code under study observes of a number only whether it is
    [NaN], whether it is zero, and how it compares with another number, so
    the finite values are represented by integers. *)
Inductive number : Type :=
| NaN
| Num (z : Z).

Definition Number_ltb (a b : number) : bool :=
  match a, b with
  | Num x, Num y => Z.ltb x y
  | _, _ => false
  end.

Definition Number_leb (a b : number) : bool :=
  match a, b with
  | Num x, Num y => Z.leb x y
  | _, _ => false
  end.

(** [a >= b] and [a > b] compare the same operands the other way round. *)
Definition Number_geb (a b : number) : bool := Number_leb b a.

Definition Number_eqb (a b : number) : bool :=
  match a, b with
  | Num x, Num y => Z.eqb x y
  | _, _ => false
  end.

(** The values a field of a record can hold. *)
Inductive value : Type :=
| VUndefined
| VString (s : jsstring)
| VNumber (n : number).

(** Truthiness: the empty string, [0], [NaN] and [undefined] are falsy. *)
Definition truthy (v : value) : bool :=
  match v with
  | VUndefined => false
  | VString [] => false
  | VString (_ :: _) => true
  | VNumber NaN => false
  | VNumber (Num z) => negb (Z.eqb z 0)
  end.

(** *** Sorting

    The language fixes what [Array.prototype.sort] returns only for a
    comparator that is a consistent comparison function for the elements
    of the array: [cmp a a] is zero, [cmp a b] is zero only if [cmp b a]
    is, and being zero, being negative and being positive are each
    transitive.  (A negative or zero result puts the first argument first,
    a positive one the second.) *)
Section Sorting.
Variable A : Type.

Definition consistent_on (cmp : A -> A -> Z) (l : list A) : Prop :=
  forall a b c,
    In a l -> In b l -> In c l ->
    cmp a a = 0%Z
    /\ (cmp a b = 0%Z -> cmp b a = 0%Z)
    /\ (cmp a b = 0%Z -> cmp b c = 0%Z -> cmp a c = 0%Z)
    /\ ((cmp a b < 0)%Z -> (cmp b c < 0)%Z -> (cmp a c < 0)%Z)
    /\ ((cmp a b > 0)%Z -> (cmp b c > 0)%Z -> (cmp a c > 0)%Z).

(** For such a comparator the sort is stable, and there is one arrangement
    it can return ([stable_sort_unique] below).  Insertion from the right
    computes it: an element moves past exactly the elements it compares
    greater than. *)
Fixpoint insert (cmp : A -> A -> Z) (x : A) (l : list A) : list A :=
  match l with
  | [] => [x]
  | y :: l' => if Z.ltb 0 (cmp x y) then y :: insert cmp x l' else x :: l
  end.

Definition sorted_by (cmp : A -> A -> Z) (l : list A) : list A :=
  fold_right (insert cmp) [] l.

Lemma insert_permutation cmp x l : Permutation (insert cmp x l) (x :: l).
Proof.
  induction l as [|y l IH]; simpl; [apply Permutation_refl|].
  destruct (Z.ltb 0 (cmp x y)); [|apply Permutation_refl].
  eapply Permutation_trans; [apply perm_skip, IH|apply perm_swap].
Qed.

Lemma sorted_by_permutation cmp l : Permutation (sorted_by cmp l) l.
Proof.
  induction l as [|x l IH]; simpl; [apply Permutation_refl|].
  eapply Permutation_trans; [apply insert_permutation|].
  apply perm_skip, IH.
Qed.
End Sorting.

(** The parts of the runtime that are taken as given: Unicode lower-casing,
    the conversion of a string to a number, and the sorting algorithm.
    Whatever the comparator, the sorted array holds the elements it held
    before; where the comparator is consistent, they are in the stable
    sorted arrangement.  Otherwise their order is up to the engine. *)
Class Runtime : Type := {
  toLowerCase : jsstring -> jsstring;
  Number : jsstring -> number;
  sort : forall A : Type, (A -> A -> Z) -> list A -> list A;
  sort_permutation :
    forall (A : Type) (cmp : A -> A -> Z) (l : list A),
      Permutation (sort cmp l) l;
  sort_consistent :
    forall (A : Type) (cmp : A -> A -> Z) (l : list A),
      consistent_on cmp l -> sort cmp l = sorted_by cmp l
}.

Section Relational.
Context {rt : Runtime}.

Definition ToNumber (v : value) : number :=
  match v with
  | VUndefined => NaN
  | VString s => Number s
  | VNumber n => n
  end.

(** [a < b]: two strings are compared as strings, anything else after
    conversion to numbers; a comparison involving [NaN] is false. *)
Definition lt (a b : value) : bool :=
  match a, b with
  | VString s, VString t => String_ltb s t
  | _, _ => Number_ltb (ToNumber a) (ToNumber b)
  end.

Definition gt (a b : value) : bool := lt b a.
End Relational.

(** A runtime for concrete evaluation: lower-casing of the letters A to Z,
    decimal numerals ([""] converts to [0], anything that is not a run of
    decimal digits to [NaN]), and sorting by insertion. *)
Definition lower_unit (c : Z) : Z :=
  if Z.leb 65 c && Z.leb c 90 then (c + 32)%Z else c.

Fixpoint digits_value (acc : Z) (s : jsstring) : number :=
  match s with
  | [] => Num acc
  | c :: s' =>
      if Z.leb 48 c && Z.leb c 57
      then digits_value (10 * acc + (c - 48))%Z s'
      else NaN
  end.

Definition basic_runtime : Runtime :=
  {| toLowerCase := map lower_unit;
     Number := digits_value 0;
     sort := sorted_by;
     sort_permutation := sorted_by_permutation;
     sort_consistent := fun A cmp l _ => eq_refl |}.

(** *** Arrays

    An array is an object: a variable holds a reference to it, and two
    variables may hold the same reference.  The store maps references to
    array contents. *)
Section Arrays.
Context {rt : Runtime}.
Variable A : Type.

Definition ref := nat.
Definition store := list (list A).

Definition deref (h : store) (r : ref) : list A := nth r h [].

Fixpoint assign (h : store) (r : ref) (xs : list A) : store :=
  match h, r with
  | [], _ => []
  | _ :: h', O => xs :: h'
  | ys :: h', S r' => ys :: assign h' r' xs
  end.

(** Computations that read and write the store. *)
Definition M (R : Type) : Type := store -> R * store.

Definition ret {R} (x : R) : M R := fun h => (x, h).

Definition bind {R S} (m : M R) (k : R -> M S) : M S :=
  fun h => let (x, h') := m h in k x h'.

(** [xs.filter(p)] builds a new array and leaves [xs] as it is. *)
Definition Array_filter (r : ref) (p : A -> bool) : M ref :=
  fun h => (length h, h ++ [filter p (deref h r)]).

(** [xs.sort(cmp)] sorts [xs] in place and returns the same reference. *)
Definition Array_sort (r : ref) (cmp : A -> A -> Z) : M ref :=
  fun h => (r, assign h r (sort cmp (deref h r))).
End Arrays.

End JS.

Notation "x <- m ;; k" := (JS.bind m (fun x => k))
  (at level 61, m at next level, right associativity).

Import JS.

(* ================================================================= *)
(** ** types.ts *)

Inductive ContractType : Type := basic | premium | custom.

(** The string a contract tier is at run time. *)
Definition ContractType_string (t : ContractType) : jsstring :=
  match t with
  | basic => js "basic"
  | premium => js "premium"
  | custom => js "custom"
  end.

Module Customer.
Record t : Type := mk {
  id : jsstring;
  name : jsstring;
  postal_code : jsstring;
  address : jsstring;
  phone : jsstring;
  email : jsstring;
  contract_type : ContractType;
  snow_removal_area : number;
  contract_start_date : jsstring;
  contract_end_date : jsstring;
  billing_amount : number;
  lat : option number;
  lng : option number;
  created_at : jsstring;
  updated_at : jsstring
}.

(** [keyof Customer]. *)
Inductive key : Type :=
| k_id | k_name | k_postal_code | k_address | k_phone | k_email
| k_contract_type | k_snow_removal_area | k_contract_start_date
| k_contract_end_date | k_billing_amount | k_lat | k_lng
| k_created_at | k_updated_at.

Definition optional (o : option number) : value :=
  match o with
  | Some n => VNumber n
  | None => VUndefined
  end.

(** [c[k]]. *)
Definition get (c : t) (k : key) : value :=
  match k with
  | k_id => VString (id c)
  | k_name => VString (name c)
  | k_postal_code => VString (postal_code c)
  | k_address => VString (address c)
  | k_phone => VString (phone c)
  | k_email => VString (email c)
  | k_contract_type => VString (ContractType_string (contract_type c))
  | k_snow_removal_area => VNumber (snow_removal_area c)
  | k_contract_start_date => VString (contract_start_date c)
  | k_contract_end_date => VString (contract_end_date c)
  | k_billing_amount => VNumber (billing_amount c)
  | k_lat => optional (lat c)
  | k_lng => optional (lng c)
  | k_created_at => VString (created_at c)
  | k_updated_at => VString (updated_at c)
  end.
(** [k === k'] on two keys. *)
Definition key_eqb (a b : key) : bool :=
  match a, b with
  | k_id, k_id | k_name, k_name | k_postal_code, k_postal_code
  | k_address, k_address | k_phone, k_phone | k_email, k_email
  | k_contract_type, k_contract_type
  | k_snow_removal_area, k_snow_removal_area
  | k_contract_start_date, k_contract_start_date
  | k_contract_end_date, k_contract_end_date
  | k_billing_amount, k_billing_amount | k_lat, k_lat | k_lng, k_lng
  | k_created_at, k_created_at | k_updated_at, k_updated_at => true
  | _, _ => false
  end.
End Customer.

Module SearchParams.
Record t : Type := mk {
  id : option jsstring;
  name : option jsstring;
  postal_code : option jsstring;
  address : option jsstring;
  phone : option jsstring;
  contract_type : option jsstring
}.

(** [{}]. *)
Definition empty : t := mk None None None None None None.
End SearchParams.

(** [if (x)] for an optional string property [x]: the branch is taken, with
    the string at hand, when the property is present and not empty. *)
Definition if_present (x : option jsstring) : option jsstring :=
  match x with
  | Some (c :: s) => Some (c :: s)
  | _ => None
  end.

(* ================================================================= *)
(** ** CustomerList.tsx *)

Module CustomerList.

(** Full-width digits (U+FF10 to U+FF19) become ASCII digits, and the
    dashes U+2010, U+FF0D, U+2015 and U+30FC become the ASCII hyphen. *)
Definition toHalfWidth (str : jsstring) : jsstring :=
  let digits :=
    map (fun s => if Z.leb 65296 s && Z.leb s 65305
                  then ((s - 65248) mod 65536)%Z
                  else s) str in
  map (fun s => if existsb (Z.eqb s) [8208; 65293; 8213; 12540]%Z
                then 45%Z
                else s) digits.

Definition formatPostalCode (value : jsstring) : jsstring :=
  let half := toHalfWidth value in
  let numbers :=
    filter (fun c => (Z.leb 48 c && Z.leb c 57) || Z.eqb c 45) half in
  filter (fun c => negb (Z.eqb c 45)) numbers.

Inductive SortDirection : Type := asc | desc.

(** The two hooks [sortField] and [sortDirection], and the handler of a
    click on a column header. *)
Record Sorting : Type := {
  sortField : Customer.key;
  sortDirection : SortDirection
}.

Definition initialSorting : Sorting :=
  {| sortField := Customer.k_name; sortDirection := asc |}.

Definition handleSort (field : Customer.key) (s : Sorting) : Sorting :=
  if Customer.key_eqb field (sortField s) then
    {| sortField := sortField s;
       sortDirection :=
         match sortDirection s with asc => desc | desc => asc end |}
  else
    {| sortField := field; sortDirection := asc |}.

Section Engine.
Context {rt : Runtime}.

(** The comparator handed to [sort]. *)
Definition compare (sortField : Customer.key) (sortDirection : SortDirection)
    (a b : Customer.t) : Z :=
  let aValue := Customer.get a sortField in
  let bValue := Customer.get b sortField in
  if JS.lt aValue bValue then
    match sortDirection with asc => (-1)%Z | desc => 1%Z end
  else if JS.gt aValue bValue then
    match sortDirection with asc => 1%Z | desc => (-1)%Z end
  else 0%Z.

(** The body of the memoised computation.  [customers] is the reference
    the component received; [filtered] starts out as the very same
    reference and is replaced by a fresh array only where a filter runs. *)
Definition filteredAndSortedCustomers (customers : ref)
    (searchParams : SearchParams.t) (sortField : Customer.key)
    (sortDirection : SortDirection) : M Customer.t ref :=
  let filtered := customers in
  filtered <-
    match if_present (SearchParams.name searchParams) with
    | Some q =>
        Array_filter filtered (fun c =>
          String_includes (toLowerCase (Customer.name c)) (toLowerCase q))
    | None => ret filtered
    end ;;
  filtered <-
    match if_present (SearchParams.postal_code searchParams) with
    | Some q =>
        Array_filter filtered (fun c =>
          String_includes (Customer.postal_code c) q)
    | None => ret filtered
    end ;;
  filtered <-
    match if_present (SearchParams.address searchParams) with
    | Some q =>
        Array_filter filtered (fun c =>
          String_includes (toLowerCase (Customer.address c)) (toLowerCase q))
    | None => ret filtered
    end ;;
  filtered <-
    match if_present (SearchParams.phone searchParams) with
    | Some q =>
        Array_filter filtered (fun c => String_includes (Customer.phone c) q)
    | None => ret filtered
    end ;;
  filtered <-
    match if_present (SearchParams.contract_type searchParams) with
    | Some q =>
        Array_filter filtered (fun c =>
          String_eqb (ContractType_string (Customer.contract_type c)) q)
    | None => ret filtered
    end ;;
  Array_sort filtered (compare sortField sortDirection).

(** One evaluation of the computation on a component whose [customers]
    property holds the records [cs]: the first component is the content of
    the returned array, the second the content of the [customers] array
    afterwards. *)
Definition evaluate (cs : list Customer.t) (searchParams : SearchParams.t)
    (sortField : Customer.key) (sortDirection : SortDirection)
    : list Customer.t * list Customer.t :=
  let customers : ref := 0 in
  let (result, h) :=
    filteredAndSortedCustomers customers searchParams sortField
      sortDirection [cs] in
  (deref h result, deref h customers).
End Engine.

End CustomerList.

(* ================================================================= *)
(** ** CustomerMap.tsx *)

Module CustomerMap.

Record FilterOptions : Type := {
  contractType : jsstring;
  minSnowArea : jsstring;
  maxSnowArea : jsstring;
  minBilling : jsstring;
  maxBilling : jsstring
}.

(** [!s] for a string [s]. *)
Definition is_empty (s : jsstring) : bool :=
  match s with
  | [] => true
  | _ :: _ => false
  end.

(** [x != null] for an optional number. *)
Definition not_null (x : option number) : bool :=
  match x with
  | Some _ => true
  | None => false
  end.

Section Display.
Context {rt : Runtime}.

Definition filteredCustomers (customers : list Customer.t)
    (searchQuery : jsstring) (filters : FilterOptions) : list Customer.t :=
  filter (fun customer =>
    let matchesSearch :=
      is_empty searchQuery
      || String_includes (toLowerCase (Customer.name customer))
           (toLowerCase searchQuery)
      || String_includes (toLowerCase (Customer.address customer))
           (toLowerCase searchQuery) in
    let matchesContractType :=
      is_empty (contractType filters)
      || String_eqb (ContractType_string (Customer.contract_type customer))
           (contractType filters) in
    let matchesSnowArea :=
      (is_empty (minSnowArea filters)
       || Number_geb (Customer.snow_removal_area customer)
            (Number (minSnowArea filters)))
      && (is_empty (maxSnowArea filters)
          || Number_leb (Customer.snow_removal_area customer)
               (Number (maxSnowArea filters))) in
    let matchesBilling :=
      (is_empty (minBilling filters)
       || Number_geb (Customer.billing_amount customer)
            (Number (minBilling filters)))
      && (is_empty (maxBilling filters)
          || Number_leb (Customer.billing_amount customer)
               (Number (maxBilling filters))) in
    matchesSearch && matchesContractType && matchesSnowArea && matchesBilling)
    customers.
End Display.

(** [{ lat: customer.lat!, lng: customer.lng! }]: the assertion [!] is erased
    at run time, so a missing coordinate is passed on as it is. *)
Record LatLngLiteral : Type := {
  lat : option number;
  lng : option number
}.

Definition location (customer : Customer.t) : LatLngLiteral :=
  {| lat := Customer.lat customer; lng := Customer.lng customer |}.

(** A marker together with the popup and the click listener created with
    it.  Objects have identity: the [k]-th marker the component creates and
    its popup carry the number [k].  The listener is a closure; the values
    it captured when it was created are recorded with it. *)
Record Marker : Type := {
  ident : nat;
  position : LatLngLiteral;
  title : jsstring;
  listener_activeInfoWindow : option nat;
  listener_customer : Customer.t
}.

Definition infoWindow (m : Marker) : nat := ident m.

(** The component's state ([loaded], [markers], [activeInfoWindow]: the
    hooks [map], [markers] and [activeInfoWindow]), the state of the map
    widget ([shown]: the markers placed on the map; [opened]: the popups
    that are open), the calls made to [onCustomerSelect], and the
    bookkeeping of the model ([fresh]: the number of the next object). *)
Module State.
Record t : Type := mk {
  loaded : bool;
  markers : list Marker;
  activeInfoWindow : option nat;
  shown : list Marker;
  opened : list nat;
  notified : list Customer.t;
  fresh : nat
}.

Definition initial : t := mk false [] None [] [] [] 0.
End State.

(** [infoWindow.close()] and [infoWindow.open(map, marker)]. *)
Definition close (w : nat) (opened : list nat) : list nat :=
  filter (fun v => negb (Nat.eqb v w)) opened.

Definition open (w : nat) (opened : list nat) : list nat :=
  if existsb (Nat.eqb w) opened then opened else w :: opened.

Definition close_active (active : option nat) (opened : list nat) : list nat :=
  match active with
  | Some w => close w opened
  | None => opened
  end.

(** The markers built from the displayed records, numbered from [fresh]
    on; [active] is the [activeInfoWindow] of the render that runs the
    effect, which every listener created here captures. *)
Definition newMarkers (filteredCustomers : list Customer.t) (fresh : nat)
    (active : option nat) : list Marker :=
  let geocoded :=
    filter (fun customer =>
      not_null (Customer.lat customer) && not_null (Customer.lng customer))
      filteredCustomers in
  map (fun kc : nat * Customer.t =>
         let (k, customer) := kc in
         {| ident := k;
            position := location customer;
            title := Customer.name customer;
            listener_activeInfoWindow := active;
            listener_customer := customer |})
      (combine (seq fresh (length geocoded)) geocoded).

(** The effect that synchronises the markers with the displayed records.
    (The fitting of the viewport to the markers is left out.) *)
Definition syncMarkers (filteredCustomers : list Customer.t) (s : State.t)
    : State.t :=
  if negb (State.loaded s) then s
  else
    let removed := map ident (State.markers s) in
    let shown' :=
      filter (fun m => negb (existsb (Nat.eqb (ident m)) removed))
        (State.shown s) in
    let opened' := close_active (State.activeInfoWindow s) (State.opened s) in
    let created :=
      newMarkers filteredCustomers (State.fresh s) (State.activeInfoWindow s) in
    State.mk true created (State.activeInfoWindow s) (shown' ++ created)
      opened' (State.notified s) (State.fresh s + length created).

(** The click listener of marker [m].  The [activeInfoWindow] it closes
    is the one of the render that created the listener, not the current
    one. *)
Definition click (m : Marker) (s : State.t) : State.t :=
  let opened' := close_active (listener_activeInfoWindow m) (State.opened s) in
  State.mk (State.loaded s) (State.markers s) (Some (infoWindow m))
    (State.shown s) (open (infoWindow m) opened')
    (State.notified s ++ [listener_customer m]) (State.fresh s).

(** The user closes popup [w] with the button the widget draws on it; the
    component is not told. *)
Definition dismiss (w : nat) (s : State.t) : State.t :=
  State.mk (State.loaded s) (State.markers s) (State.activeInfoWindow s)
    (State.shown s) (close w (State.opened s)) (State.notified s)
    (State.fresh s).

(** The map widget has finished loading: [setMap(map)]. *)
Definition mapLoaded (s : State.t) : State.t :=
  State.mk true (State.markers s) (State.activeInfoWindow s) (State.shown s)
    (State.opened s) (State.notified s) (State.fresh s).

(** The runs of the component.  A render may happen at any time, with any
    records on display, and is followed by the effect: [filteredCustomers]
    is a new array in every render, so the effect's dependencies differ
    every time.  A click reaches the listener of a marker on the map, at
    any time: nothing in the component makes a click wait for the render
    of the click before it.  The user may close a popup at any time. *)
Inductive step : State.t -> State.t -> Prop :=
| step_load s :
    step s (mapLoaded s)
| step_render s displayed :
    step s (syncMarkers displayed s)
| step_click s m :
    In m (State.shown s) ->
    step s (click m s)
| step_dismiss s w :
    step s (dismiss w s).

Inductive reachable : State.t -> Prop :=
| reachable_initial : reachable State.initial
| reachable_step s s' : reachable s -> step s s' -> reachable s'.

(** *** Routes *)

Record Waypoint : Type := {
  waypoint_location : LatLngLiteral;
  stopover : bool
}.

Record DirectionsRequest : Type := {
  origin : LatLngLiteral;
  destination : LatLngLiteral;
  waypoints : list Waypoint;
  optimizeWaypoints : bool
}.

(** [xs.slice(start, end)], negative indices counting from the end. *)
Definition Array_slice {A} (xs : list A) (start end_ : Z) : list A :=
  let len := Z.of_nat (length xs) in
  let clamp i := if Z.ltb i 0 then Z.max (len + i) 0 else Z.min i len in
  let from := clamp start in
  let upto := clamp end_ in
  firstn (Z.to_nat (upto - from)) (skipn (Z.to_nat from) xs).

(** The requests [calculateRoute] sends to the routing service (travel
    mode: driving).  [map] and [directionsRenderer] tell whether the two
    hooks hold an object. *)
Definition calculateRoute (map directionsRenderer : bool)
    (selectedCustomers : list Customer.t) : list DirectionsRequest :=
  if negb map || negb directionsRenderer
     || Nat.ltb (length selectedCustomers) 2
  then []
  else
    match nth_error selectedCustomers 0,
          nth_error selectedCustomers (length selectedCustomers - 1) with
    | Some origin_, Some destination_ =>
        let waypoints_ :=
          List.map (fun customer =>
                      {| waypoint_location := location customer;
                         stopover := true |})
            (Array_slice selectedCustomers 1 (-1)) in
        [ {| origin := location origin_;
             destination := location destination_;
             waypoints := waypoints_;
             optimizeWaypoints := true |} ]
    | _, _ => []
    end.

(** The options offered by the selection list, by value. *)
Definition options (filteredCustomers : list Customer.t) : list jsstring :=
  List.map Customer.id
    (filter (fun customer =>
       not_null (Customer.lat customer) && not_null (Customer.lng customer))
       filteredCustomers).

(** The change handler of the selection list: the new [selectedCustomers]. *)
Definition onChange (filteredCustomers : list Customer.t)
    (selectedIds : list jsstring) : list Customer.t :=
  filter (fun c => existsb (fun i => String_eqb i (Customer.id c)) selectedIds)
    filteredCustomers.

End CustomerMap.

(* ================================================================= *)
(** ** [Partial<Customer>]: the draft of a record

    A property of a draft is absent or holds a value of its type. *)

Module PartialCustomer.
Record t : Type := mk {
  id : option jsstring;
  name : option jsstring;
  postal_code : option jsstring;
  address : option jsstring;
  phone : option jsstring;
  email : option jsstring;
  contract_type : option ContractType;
  snow_removal_area : option number;
  contract_start_date : option jsstring;
  contract_end_date : option jsstring;
  billing_amount : option number;
  lat : option number;
  lng : option number;
  created_at : option jsstring;
  updated_at : option jsstring
}.

(** [{}]. *)
Definition empty : t :=
  mk None None None None None None None None None None None None None None
     None.

(** A record, seen as a draft that has every property the record has. *)
Definition of_customer (c : Customer.t) : t :=
  mk (Some (Customer.id c)) (Some (Customer.name c))
     (Some (Customer.postal_code c)) (Some (Customer.address c))
     (Some (Customer.phone c)) (Some (Customer.email c))
     (Some (Customer.contract_type c)) (Some (Customer.snow_removal_area c))
     (Some (Customer.contract_start_date c))
     (Some (Customer.contract_end_date c))
     (Some (Customer.billing_amount c)) (Customer.lat c) (Customer.lng c)
     (Some (Customer.created_at c)) (Some (Customer.updated_at c)).

Definition with_postal_code (code : jsstring) (d : t) : t :=
  mk (id d) (name d) (Some code) (address d) (phone d) (email d)
     (contract_type d) (snow_removal_area d) (contract_start_date d)
     (contract_end_date d) (billing_amount d) (lat d) (lng d)
     (created_at d) (updated_at d).

Definition with_address (a : jsstring) (d : t) : t :=
  mk (id d) (name d) (postal_code d) (Some a) (phone d) (email d)
     (contract_type d) (snow_removal_area d) (contract_start_date d)
     (contract_end_date d) (billing_amount d) (lat d) (lng d)
     (created_at d) (updated_at d).

Definition with_coordinates (la ln : number) (d : t) : t :=
  mk (id d) (name d) (postal_code d) (address d) (phone d) (email d)
     (contract_type d) (snow_removal_area d) (contract_start_date d)
     (contract_end_date d) (billing_amount d) (Some la) (Some ln)
     (created_at d) (updated_at d).

(** [{ ...prev, name: v }] and its like, for the fields the form sets one
    at a time. *)
Definition with_name (v : jsstring) (d : t) : t :=
  mk (id d) (Some v) (postal_code d) (address d) (phone d) (email d)
     (contract_type d) (snow_removal_area d) (contract_start_date d)
     (contract_end_date d) (billing_amount d) (lat d) (lng d)
     (created_at d) (updated_at d).

Definition with_phone (v : jsstring) (d : t) : t :=
  mk (id d) (name d) (postal_code d) (address d) (Some v) (email d)
     (contract_type d) (snow_removal_area d) (contract_start_date d)
     (contract_end_date d) (billing_amount d) (lat d) (lng d)
     (created_at d) (updated_at d).

Definition with_email (v : jsstring) (d : t) : t :=
  mk (id d) (name d) (postal_code d) (address d) (phone d) (Some v)
     (contract_type d) (snow_removal_area d) (contract_start_date d)
     (contract_end_date d) (billing_amount d) (lat d) (lng d)
     (created_at d) (updated_at d).

Definition with_contract_type (v : ContractType) (d : t) : t :=
  mk (id d) (name d) (postal_code d) (address d) (phone d) (email d)
     (Some v) (snow_removal_area d) (contract_start_date d)
     (contract_end_date d) (billing_amount d) (lat d) (lng d)
     (created_at d) (updated_at d).

Definition with_snow_removal_area (v : number) (d : t) : t :=
  mk (id d) (name d) (postal_code d) (address d) (phone d) (email d)
     (contract_type d) (Some v) (contract_start_date d)
     (contract_end_date d) (billing_amount d) (lat d) (lng d)
     (created_at d) (updated_at d).

Definition with_contract_start_date (v : jsstring) (d : t) : t :=
  mk (id d) (name d) (postal_code d) (address d) (phone d) (email d)
     (contract_type d) (snow_removal_area d) (Some v)
     (contract_end_date d) (billing_amount d) (lat d) (lng d)
     (created_at d) (updated_at d).

Definition with_contract_end_date (v : jsstring) (d : t) : t :=
  mk (id d) (name d) (postal_code d) (address d) (phone d) (email d)
     (contract_type d) (snow_removal_area d) (contract_start_date d)
     (Some v) (billing_amount d) (lat d) (lng d)
     (created_at d) (updated_at d).

Definition with_billing_amount (v : number) (d : t) : t :=
  mk (id d) (name d) (postal_code d) (address d) (phone d) (email d)
     (contract_type d) (snow_removal_area d) (contract_start_date d)
     (contract_end_date d) (Some v) (lat d) (lng d)
     (created_at d) (updated_at d).
End PartialCustomer.

(* ================================================================= *)
(** ** CustomerForm.tsx *)

Module CustomerForm.

(** The geocoding service.  A request is rejected or resolves to a
    response; [results], a result and its [geometry] may be missing. *)
Record GeocoderResult : Type := {
  geometry : option (number * number)
}.

Inductive GeocoderResponse : Type :=
| geocode_rejected
| geocode_resolved (results : option (list GeocoderResult)).

Definition Geocoder := jsstring -> GeocoderResponse.

(** The postal-code service.  [fetch] and the decoding of the body fail, or
    yield data whose [results] may be missing or empty. *)
Record ZipResult : Type := {
  address1 : jsstring;
  address2 : jsstring;
  address3 : jsstring
}.

Inductive FetchOutcome : Type :=
| fetch_failed
| fetch_json (results : option (list ZipResult)).

Definition Fetch := jsstring -> FetchOutcome.

(** What a handler does to the outside, in order. *)
Inductive effect : Type :=
| Geocode (address : jsstring)
| FetchUrl (url : jsstring)
| ConsoleError (message : jsstring)
| OnSubmit (data : PartialCustomer.t).

Section Form.
(** The [geocoder] hook holds no object until the widget has loaded. *)
Variable geocoder : option Geocoder.
Variable fetch : Fetch.

Definition geocodeAddress (address : jsstring)
    : option (number * number) * list effect :=
  match geocoder with
  | None => (None, [])
  | Some g =>
      match g address with
      | geocode_resolved (Some ({| geometry := Some location |} :: _)) =>
          (Some location, [Geocode address])
      | geocode_resolved _ =>
          (None, [Geocode address])
      | geocode_rejected =>
          (None, [Geocode address; ConsoleError (js "Geocoding failed:")])
      end
  end.

(** Submission: the draft as the handler leaves it, and what it did. *)
Definition handleSubmit (formData : PartialCustomer.t)
    : PartialCustomer.t * list effect :=
  match if_present (PartialCustomer.address formData) with
  | Some address =>
      let (coordinates, done) := geocodeAddress address in
      let formData' :=
        match coordinates with
        | Some (la, ln) => PartialCustomer.with_coordinates la ln formData
        | None => formData
        end in
      (formData', done ++ [OnSubmit formData'])
  | None => (formData, [OnSubmit formData])
  end.

Definition zipcloud : jsstring :=
  js "https://zipcloud.ibsnet.co.jp/api/search?zipcode=".

Definition handlePostalCodeChange (code : jsstring)
    (formData : PartialCustomer.t) : PartialCustomer.t * list effect :=
  let formData := PartialCustomer.with_postal_code code formData in
  if Nat.eqb (length code) 7 then
    let url := zipcloud ++ code in
    match fetch url with
    | fetch_json (Some (r :: _)) =>
        let fullAddress := address1 r ++ address2 r ++ address3 r in
        let formData := PartialCustomer.with_address fullAddress formData in
        let (coordinates, done) := geocodeAddress fullAddress in
        let formData :=
          match coordinates with
          | Some (la, ln) => PartialCustomer.with_coordinates la ln formData
          | None => formData
          end in
        (formData, FetchUrl url :: done)
    | fetch_json _ => (formData, [FetchUrl url])
    | fetch_failed =>
        (formData,
         [FetchUrl url;
          ConsoleError (js "Failed to fetch address or coordinates:")])
    end
  else (formData, []).

Definition handleAddressChange (newAddress : jsstring)
    (formData : PartialCustomer.t) : PartialCustomer.t * list effect :=
  let formData := PartialCustomer.with_address newAddress formData in
  if Nat.ltb 5 (length newAddress) then
    let (coordinates, done) := geocodeAddress newAddress in
    match coordinates with
    | Some (la, ln) =>
        (PartialCustomer.with_coordinates la ln formData, done)
    | None => (formData, done)
    end
  else (formData, []).
End Form.

(** What the user does to the fields of the form.  The two numeric fields
    hand over the text of the input, which the form converts with
    [Number]. *)
Inductive input : Type :=
| NameInput (v : jsstring)
| PostalCodeInput (v : jsstring)
| AddressInput (v : jsstring)
| PhoneInput (v : jsstring)
| EmailInput (v : jsstring)
| ContractTypeInput (v : ContractType)
| SnowRemovalAreaInput (v : jsstring)
| ContractStartDateInput (v : jsstring)
| ContractEndDateInput (v : jsstring)
| BillingAmountInput (v : jsstring).

Section Editing.
Context {rt : Runtime}.
Variable geocoder : option Geocoder.
Variable fetch : Fetch.

(** The [onChange] handler of each field. *)
Definition onInput (i : input) (formData : PartialCustomer.t)
    : PartialCustomer.t * list effect :=
  match i with
  | NameInput v => (PartialCustomer.with_name v formData, [])
  | PostalCodeInput v => handlePostalCodeChange geocoder fetch v formData
  | AddressInput v => handleAddressChange geocoder v formData
  | PhoneInput v => (PartialCustomer.with_phone v formData, [])
  | EmailInput v => (PartialCustomer.with_email v formData, [])
  | ContractTypeInput v =>
      (PartialCustomer.with_contract_type v formData, [])
  | SnowRemovalAreaInput v =>
      (PartialCustomer.with_snow_removal_area (Number v) formData, [])
  | ContractStartDateInput v =>
      (PartialCustomer.with_contract_start_date v formData, [])
  | ContractEndDateInput v =>
      (PartialCustomer.with_contract_end_date v formData, [])
  | BillingAmountInput v =>
      (PartialCustomer.with_billing_amount (Number v) formData, [])
  end.

(** A sitting at the form: the inputs one after the other, each handler
    running to its end before the next input. *)
Fixpoint edit (inputs : list input) (formData : PartialCustomer.t)
    : PartialCustomer.t * list effect :=
  match inputs with
  | [] => (formData, [])
  | i :: rest =>
      let (formData', done) := onInput i formData in
      let (formData'', done') := edit rest formData' in
      (formData'', done ++ done')
  end.

(** The inputs, then the button that submits. *)
Definition editAndSubmit (inputs : list input) (formData : PartialCustomer.t)
    : PartialCustomer.t * list effect :=
  let (formData', done) := edit inputs formData in
  let (formData'', done') := handleSubmit geocoder formData' in
  (formData'', done ++ done').
End Editing.

(** The requests sent to the geocoder, by address. *)
Definition geocodings (done : list effect) : list jsstring :=
  flat_map (fun e => match e with Geocode a => [a] | _ => [] end) done.

(** The number of requests sent to the postal-code service. *)
Definition lookups (done : list effect) : nat :=
  length (filter (fun e => match e with FetchUrl _ => true | _ => false end)
            done).

Definition submissions (done : list effect) : list PartialCustomer.t :=
  flat_map (fun e => match e with OnSubmit d => [d] | _ => [] end) done.

End CustomerForm.

(* ================================================================= *)
(** ** App.tsx *)

Module App.

(** The surroundings of the record store: the clock, read by every
    [new Date()], and the identifiers drawn from [Math.random()].  [clock k]
    is what the [k]-th reading of the clock shows, [random k] the [k]-th
    identifier drawn. *)
Record World : Type := {
  clock : nat -> jsstring;
  reads : nat;
  random : nat -> jsstring;
  draws : nat
}.

(** [new Date().toISOString()]. *)
Definition new_Date (w : World) : jsstring * World :=
  (clock w (reads w),
   {| clock := clock w; reads := S (reads w);
      random := random w; draws := draws w |}).

(** [Math.random().toString(36).substr(2, 9)]. *)
Definition Math_random (w : World) : jsstring * World :=
  (random w (draws w),
   {| clock := clock w; reads := reads w;
      random := random w; draws := S (draws w) |}).

Inductive View : Type := list_view | map_view.

Record State : Type := {
  view : View;
  showForm : bool;
  selectedCustomer : option Customer.t;
  customers : list Customer.t
}.

(** [x || ''] and [x || 0]. *)
Definition or_empty (x : option jsstring) : jsstring :=
  match x with
  | Some s => if truthy (VString s) then s else []
  | None => []
  end.

Definition or_zero (x : option number) : number :=
  match x with
  | Some n => if truthy (VNumber n) then n else Num 0
  | None => Num 0
  end.

(** [x || 'basic']: a contract tier is a non-empty string. *)
Definition or_basic (x : option ContractType) : ContractType :=
  match x with
  | Some t => t
  | None => basic
  end.

Definition or_else {A} (x : option A) (y : A) : A :=
  match x with
  | Some v => v
  | None => y
  end.

(** [{ ...selectedCustomer, ...data, updated_at }]: a property of [data]
    overrides the one of [selectedCustomer]. *)
Definition updated (selected : Customer.t) (data : PartialCustomer.t)
    (now : jsstring) : Customer.t :=
  {| Customer.id := or_else (PartialCustomer.id data) (Customer.id selected);
     Customer.name :=
       or_else (PartialCustomer.name data) (Customer.name selected);
     Customer.postal_code :=
       or_else (PartialCustomer.postal_code data)
         (Customer.postal_code selected);
     Customer.address :=
       or_else (PartialCustomer.address data) (Customer.address selected);
     Customer.phone :=
       or_else (PartialCustomer.phone data) (Customer.phone selected);
     Customer.email :=
       or_else (PartialCustomer.email data) (Customer.email selected);
     Customer.contract_type :=
       or_else (PartialCustomer.contract_type data)
         (Customer.contract_type selected);
     Customer.snow_removal_area :=
       or_else (PartialCustomer.snow_removal_area data)
         (Customer.snow_removal_area selected);
     Customer.contract_start_date :=
       or_else (PartialCustomer.contract_start_date data)
         (Customer.contract_start_date selected);
     Customer.contract_end_date :=
       or_else (PartialCustomer.contract_end_date data)
         (Customer.contract_end_date selected);
     Customer.billing_amount :=
       or_else (PartialCustomer.billing_amount data)
         (Customer.billing_amount selected);
     Customer.lat :=
       match PartialCustomer.lat data with
       | Some n => Some n
       | None => Customer.lat selected
       end;
     Customer.lng :=
       match PartialCustomer.lng data with
       | Some n => Some n
       | None => Customer.lng selected
       end;
     Customer.created_at :=
       or_else (PartialCustomer.created_at data) (Customer.created_at selected);
     Customer.updated_at := now |}.

Definition newCustomer (data : PartialCustomer.t) (ident created now : jsstring)
    : Customer.t :=
  {| Customer.id := ident;
     Customer.name := or_empty (PartialCustomer.name data);
     Customer.postal_code := or_empty (PartialCustomer.postal_code data);
     Customer.address := or_empty (PartialCustomer.address data);
     Customer.phone := or_empty (PartialCustomer.phone data);
     Customer.email := or_empty (PartialCustomer.email data);
     Customer.contract_type := or_basic (PartialCustomer.contract_type data);
     Customer.snow_removal_area :=
       or_zero (PartialCustomer.snow_removal_area data);
     Customer.contract_start_date :=
       or_empty (PartialCustomer.contract_start_date data);
     Customer.contract_end_date :=
       or_empty (PartialCustomer.contract_end_date data);
     Customer.billing_amount := or_zero (PartialCustomer.billing_amount data);
     Customer.lat := Some (or_zero (PartialCustomer.lat data));
     Customer.lng := Some (or_zero (PartialCustomer.lng data));
     Customer.created_at := created;
     Customer.updated_at := now |}.

Definition handleSubmit (data : PartialCustomer.t) (s : State) (w : World)
    : State * World :=
  match selectedCustomer s with
  | Some selected =>
      let (now, w) := new_Date w in
      let updated_ := updated selected data now in
      ({| view := view s;
          showForm := false;
          selectedCustomer := None;
          customers :=
            map (fun c =>
                   if String_eqb (Customer.id c) (Customer.id selected)
                   then updated_ else c)
              (customers s) |}, w)
  | None =>
      let (ident, w) := Math_random w in
      let (created, w) := new_Date w in
      let (now, w) := new_Date w in
      ({| view := view s;
          showForm := false;
          selectedCustomer := None;
          customers := customers s ++ [newCustomer data ident created now] |},
       w)
  end.

Definition handleEdit (customer : Customer.t) (s : State) : State :=
  {| view := view s;
     showForm := true;
     selectedCustomer := Some customer;
     customers := customers s |}.

(** [confirmed] is the answer the user gives to [window.confirm]. *)
Definition handleDelete (confirmed : bool) (customer : Customer.t) (s : State)
    : State :=
  if confirmed then
    {| view := view s;
       showForm := showForm s;
       selectedCustomer := None;
       customers :=
         filter (fun c =>
                   negb (String_eqb (Customer.id c) (Customer.id customer)))
           (customers s) |}
  else s.

Definition handleShowOnMap (customer : Customer.t) (s : State) : State :=
  {| view := map_view;
     showForm := showForm s;
     selectedCustomer := Some customer;
     customers := customers s |}.

Definition handleAddNew (s : State) : State :=
  {| view := view s;
     showForm := true;
     selectedCustomer := None;
     customers := customers s |}.

Definition handleCancel (s : State) : State :=
  {| view := view s;
     showForm := false;
     selectedCustomer := None;
     customers := customers s |}.

Definition setView (v : View) (s : State) : State :=
  {| view := v;
     showForm := showForm s;
     selectedCustomer := selectedCustomer s;
     customers := customers s |}.

(** [onCustomerSelect={setSelectedCustomer}]. *)
Definition setSelectedCustomer (customer : Customer.t) (s : State) : State :=
  {| view := view s;
     showForm := showForm s;
     selectedCustomer := Some customer;
     customers := customers s |}.

(** What the user can do to the application.  The list and the map hand
    over records of the collection; the form hands over a draft. *)
Inductive step : State -> State -> Prop :=
| step_submit s data w :
    step s (fst (handleSubmit data s w))
| step_edit s c :
    In c (customers s) -> step s (handleEdit c s)
| step_delete s c confirmed :
    In c (customers s) -> step s (handleDelete confirmed c s)
| step_show s c :
    In c (customers s) -> step s (handleShowOnMap c s)
| step_select s c :
    In c (customers s) -> step s (setSelectedCustomer c s)
| step_add s :
    step s (handleAddNew s)
| step_cancel s :
    step s (handleCancel s)
| step_view s v :
    step s (setView v s).

Definition initial : State :=
  {| view := list_view;
     showForm := false;
     selectedCustomer := None;
     customers := [] |}.

Inductive reachable : State -> Prop :=
| reachable_initial : reachable initial
| reachable_step s s' : reachable s -> step s s' -> reachable s'.

(** The form is opened on the selected record, or on an empty draft. *)
Definition initialData (s : State) : PartialCustomer.t :=
  match selectedCustomer s with
  | Some c => PartialCustomer.of_customer c
  | None => PartialCustomer.empty
  end.

End App.

(* ================================================================= *)
(** ** The vocabulary of the specification *)

Module Spec.

(** [before x y l]: an occurrence of [x] precedes an occurrence of [y]. *)
Definition before {A} (x y : A) (l : list A) : Prop :=
  exists l1 l2 l3, l = l1 ++ x :: l2 ++ y :: l3.

(** A list paired with the positions of its elements. *)
Definition indexed {A} (l : list A) : list (nat * A) :=
  combine (seq 0 (length l)) l.

(** One field predicate: absent or empty, it constrains nothing. *)
Definition constraint (q : option jsstring) (test : jsstring -> bool) : bool :=
  match q with
  | None => true
  | Some [] => true
  | Some (c :: s) => test (c :: s)
  end.

Section Predicates.
Context {rt : Runtime}.

Definition includes_ignoring_case (s q : jsstring) : bool :=
  String_includes (toLowerCase s) (toLowerCase q).

(** A record satisfies all the supplied predicates. *)
Definition satisfies (sp : SearchParams.t) (c : Customer.t) : bool :=
  constraint (SearchParams.name sp)
    (includes_ignoring_case (Customer.name c))
  && constraint (SearchParams.postal_code sp)
       (String_includes (Customer.postal_code c))
  && constraint (SearchParams.address sp)
       (includes_ignoring_case (Customer.address c))
  && constraint (SearchParams.phone sp)
       (String_includes (Customer.phone c))
  && constraint (SearchParams.contract_type sp)
       (String_eqb (ContractType_string (Customer.contract_type c))).
End Predicates.

(** No predicate is supplied. *)
Definition unconstrained (sp : SearchParams.t) : bool :=
  match if_present (SearchParams.name sp),
        if_present (SearchParams.postal_code sp),
        if_present (SearchParams.address sp),
        if_present (SearchParams.phone sp),
        if_present (SearchParams.contract_type sp) with
  | None, None, None, None, None => true
  | _, _, _, _, _ => false
  end.

(** A record of the scenarios: [base] with the given name and tier. *)
Definition named (base : Customer.t) (n : jsstring) (tier : ContractType)
    : Customer.t :=
  Customer.mk (Customer.id base) n (Customer.postal_code base)
    (Customer.address base) (Customer.phone base) (Customer.email base) tier
    (Customer.snow_removal_area base) (Customer.contract_start_date base)
    (Customer.contract_end_date base) (Customer.billing_amount base)
    (Customer.lat base) (Customer.lng base) (Customer.created_at base)
    (Customer.updated_at base).

(** The keys whose values are strings; among them the three columns the
    list lets the user sort by. *)
Definition string_key (k : Customer.key) : bool :=
  match k with
  | Customer.k_snow_removal_area | Customer.k_billing_amount
  | Customer.k_lat | Customer.k_lng => false
  | _ => true
  end.

(** The string a record holds under a key with string values. *)
Definition key_string (k : Customer.key) (c : Customer.t) : jsstring :=
  match Customer.get c k with
  | VString v => v
  | _ => []
  end.

(** A value the comparator can order: a string, or a number other than
    [NaN].  (An absent coordinate is [undefined], and compares neither less
    nor greater than anything.) *)
Definition comparable (v : value) : bool :=
  match v with
  | VString _ => true
  | VNumber (Num _) => true
  | _ => false
  end.

(** [{ contract_type: t }]. *)
Definition by_contract_type (t : jsstring) : SearchParams.t :=
  SearchParams.mk None None None None None (Some t).

(** A record is geocoded when it has both coordinates. *)
Definition geocoded (c : Customer.t) : Prop :=
  Customer.lat c <> None /\ Customer.lng c <> None.

(** The coordinates of a record, or of a draft, come in pairs. *)
Definition paired (la ln : option number) : Prop := la = None <-> ln = None.

(** The records of [cs] with their positions: those the filter keeps, in
    the stable sorted arrangement. *)
Definition traced {rt : Runtime} (cs : list Customer.t) (sp : SearchParams.t)
    (field : Customer.key) (dir : CustomerList.SortDirection)
    : list (nat * Customer.t) :=
  sorted_by (fun u v => CustomerList.compare field dir (snd u) (snd v))
    (filter (fun u => satisfies sp (snd u)) (indexed cs)).

End Spec.

(* ================================================================= *)
(** ** Concrete records, collaborators and states *)

Module Scenario.
Import CustomerForm App.

(** A postal-code service and a geocoder that answer every request. *)
Definition answering_fetch : Fetch :=
  fun _ =>
    fetch_json
      (Some [ {| address1 := js "Hokkaido";
                 address2 := js "Sapporo";
                 address3 := js "Kita" |} ]).

Definition answering_geocoder : Geocoder :=
  fun _ =>
    geocode_resolved (Some [ {| geometry := Some (Num 43, Num 141) |} ]).

Definition failing_geocoder : Geocoder := fun _ => geocode_rejected.

(** A store with no record, the form open on a new draft. *)
Definition empty_store : State :=
  {| view := list_view; showForm := true; selectedCustomer := None;
     customers := [] |}.

(** A clock that advances by a millisecond between two readings. *)
Definition ticking_world : World :=
  {| clock := fun k =>
       match k with
       | O => js "2025-01-24T11:39:42.000Z"
       | _ => js "2025-01-24T11:39:42.001Z"
       end;
     reads := 0;
     random := fun _ => js "k3j9x0q2a";
     draws := 0 |}.

(** A draft that was never geocoded. *)
Definition draft_without_coordinates : PartialCustomer.t :=
  PartialCustomer.with_address (js "Tokyo") PartialCustomer.empty.

(** Three records: two geocoded ones and one that is not. *)
Definition record (ident name_ : string) (la ln : option number) : Customer.t :=
  Customer.mk (js ident) (js name_) (js "0600000") (js "Sapporo") (js "011")
    (js "a@example.jp") basic (Num 120) (js "2025-01-01") (js "2025-03-31")
    (Num 30000) la ln (js "2025-01-24T11:39:42.000Z")
    (js "2025-01-24T11:39:42.000Z").

Definition sato : Customer.t :=
  record "c1" "Sato" (Some (Num 43)) (Some (Num 141)).
Definition kato : Customer.t := record "c2" "Kato" None None.
Definition abe : Customer.t :=
  record "c3" "Abe" (Some (Num 44)) (Some (Num 142)).
Definition endo : Customer.t :=
  record "c4" "Endo" (Some (Num 42)) (Some (Num 140)).

(** Four records to sort by latitude; the third has no coordinates. *)
Definition mori : Customer.t :=
  record "c5" "Mori" (Some (Num 2)) (Some (Num 141)).
Definition ueda : Customer.t :=
  record "c6" "Ueda" (Some (Num 1)) (Some (Num 141)).
Definition hara : Customer.t := record "c7" "Hara" None None.
Definition fuji : Customer.t :=
  record "c8" "Fuji" (Some (Num 1)) (Some (Num 142)).

(** A store with two records, the form open on a new draft. *)
Definition store_of_two : State :=
  {| view := list_view; showForm := true; selectedCustomer := None;
     customers := [sato; kato] |}.

Definition no_filters : CustomerMap.FilterOptions :=
  {| CustomerMap.contractType := [];
     CustomerMap.minSnowArea := [];
     CustomerMap.maxSnowArea := [];
     CustomerMap.minBilling := [];
     CustomerMap.maxBilling := [] |}.

(** The map component after loading and rendering the three records, the
    marker of the first record, and the state after a click on it. *)
Definition rendered : CustomerMap.State.t :=
  CustomerMap.syncMarkers [sato; kato; abe]
    (CustomerMap.mapLoaded CustomerMap.State.initial).

Definition marker_of_sato : CustomerMap.Marker :=
  {| CustomerMap.ident := 0;
     CustomerMap.position := CustomerMap.location sato;
     CustomerMap.title := js "Sato";
     CustomerMap.listener_activeInfoWindow := None;
     CustomerMap.listener_customer := sato |}.

Definition marker_of_abe : CustomerMap.Marker :=
  {| CustomerMap.ident := 1;
     CustomerMap.position := CustomerMap.location abe;
     CustomerMap.title := js "Abe";
     CustomerMap.listener_activeInfoWindow := None;
     CustomerMap.listener_customer := abe |}.

Definition clicked : CustomerMap.State.t :=
  CustomerMap.click marker_of_sato rendered.


End Scenario.

(* ================================================================= *)
(** ** Lists, order of occurrence, and the sort *)

Section ListFacts.
Variable A : Type.
Implicit Types (x y z : A) (l : list A).

Lemma before_head x y l : In y l -> Spec.before x y (x :: l).
Proof.
  intros Hy. apply in_split in Hy as (l2 & l3 & ->).
  exists [], l2, l3. reflexivity.
Qed.

Lemma before_tail x y z l : Spec.before x y l -> Spec.before x y (z :: l).
Proof.
  intros (l1 & l2 & l3 & ->). exists (z :: l1), l2, l3. reflexivity.
Qed.

Lemma before_cons_inv x y z l :
  Spec.before x y (z :: l) -> (x = z /\ In y l) \/ Spec.before x y l.
Proof.
  intros (l1 & l2 & l3 & E). destruct l1 as [|w l1]; simpl in E.
  - injection E as -> ->. left. split; [reflexivity|].
    apply in_or_app. right. left. reflexivity.
  - injection E as -> ->. right. exists l1, l2, l3. reflexivity.
Qed.

Lemma before_nil x y : ~ Spec.before x y [].
Proof. intros (l1 & l2 & l3 & E). destruct l1; discriminate E. Qed.

Lemma before_in_l x y l : Spec.before x y l -> In x l.
Proof.
  intros (l1 & l2 & l3 & ->). apply in_or_app. right. left. reflexivity.
Qed.

Lemma before_in_r x y l : Spec.before x y l -> In y l.
Proof.
  intros (l1 & l2 & l3 & ->). apply in_or_app. right. right.
  apply in_or_app. right. left. reflexivity.
Qed.

Lemma before_filter (f : A -> bool) x y l :
  Spec.before x y (filter f l) -> Spec.before x y l.
Proof.
  induction l as [|z l IH]; simpl; [trivial|].
  destruct (f z).
  - intros H. apply before_cons_inv in H as [[-> Hy]|H].
    + apply before_head. apply filter_In in Hy. tauto.
    + apply before_tail, IH, H.
  - intros H. apply before_tail, IH, H.
Qed.

Lemma filter_before (f : A -> bool) x y l :
  Spec.before x y l -> f x = true -> f y = true ->
  Spec.before x y (filter f l).
Proof.
  intros (l1 & l2 & l3 & ->) Hx Hy.
  rewrite filter_app. simpl. rewrite Hx, filter_app. simpl. rewrite Hy.
  exists (filter f l1), (filter f l2), (filter f l3). reflexivity.
Qed.

Lemma nth_error_before l : forall p q x y,
  p < q -> nth_error l p = Some x -> nth_error l q = Some y ->
  Spec.before x y l.
Proof.
  induction l as [|z l IH]; intros p q x y Hpq Hp Hq.
  - destruct p; discriminate Hp.
  - destruct q as [|q]; [lia|]. destruct p as [|p]; simpl in Hp, Hq.
    + injection Hp as ->. apply before_head. eapply nth_error_In, Hq.
    + apply before_tail. apply (IH p q); [lia|assumption|assumption].
Qed.

(** *** Insertion *)

Variable cmp : A -> A -> Z.

Lemma insert_perm x l : Permutation (insert cmp x l) (x :: l).
Proof.
  induction l as [|y l IH]; simpl; [reflexivity|].
  destruct (Z.ltb 0 (cmp x y)); [|reflexivity].
  rewrite IH. apply perm_swap.
Qed.

Lemma sorted_by_perm l : Permutation (sorted_by cmp l) l.
Proof.
  induction l as [|x l IH]; simpl; [reflexivity|].
  rewrite insert_perm. constructor. exact IH.
Qed.

Lemma sorted_by_in x l : In x (sorted_by cmp l) <-> In x l.
Proof.
  split; apply Permutation_in;
    [apply sorted_by_perm | apply Permutation_sym, sorted_by_perm].
Qed.

(** An element that is inserted overtakes only what it is greater than. *)
Lemma insert_before_inv a b x l :
  Spec.before a b (insert cmp x l) ->
  Spec.before a b l
  \/ (a = x /\ In b l)
  \/ (b = x /\ In a l /\ (0 < cmp x a)%Z).
Proof.
  induction l as [|y l IH]; simpl.
  - intros H. apply before_cons_inv in H as [[_ []]|H].
    destruct (before_nil H).
  - destruct (Z.ltb 0 (cmp x y)) eqn:E.
    + intros H. apply before_cons_inv in H as [[-> Hb]|H].
      * apply (Permutation_in _ (insert_perm x l)) in Hb.
        destruct Hb as [<-|Hb].
        -- right. right. split; [reflexivity|]. split; [left; reflexivity|].
           apply Z.ltb_lt, E.
        -- left. apply before_head, Hb.
      * destruct (IH H) as [H1|[[-> H1]|(-> & H1 & H2)]].
        -- left. apply before_tail, H1.
        -- right. left. split; [reflexivity|right; exact H1].
        -- right. right. split; [reflexivity|]. split; [right; exact H1|].
           exact H2.
    + intros H. apply before_cons_inv in H as [[-> Hb]|H].
      * right. left. split; [reflexivity|exact Hb].
      * left. exact H.
Qed.

Lemma insert_before_keep a b x l :
  Spec.before a b l -> Spec.before a b (insert cmp x l).
Proof.
  induction l as [|y l IH]; simpl; intros H.
  - destruct (before_nil H).
  - destruct (Z.ltb 0 (cmp x y)).
    + apply before_cons_inv in H as [[-> Hb]|H].
      * apply before_head.
        apply (Permutation_in _ (Permutation_sym (insert_perm x l))).
        right. exact Hb.
      * apply before_tail, IH, H.
    + apply before_tail, H.
Qed.

Lemma insert_stops b x l :
  In b l -> ~ (0 < cmp x b)%Z -> Spec.before x b (insert cmp x l).
Proof.
  induction l as [|y l IH]; simpl; intros Hb Hxb; [contradiction|].
  destruct (Z.ltb 0 (cmp x y)) eqn:E.
  - destruct Hb as [->|Hb].
    + apply Z.ltb_lt in E. contradiction.
    + apply before_tail, IH; assumption.
  - apply before_head. exact Hb.
Qed.

(** Two elements that do not compare greater one way round keep their
    order of occurrence. *)
Lemma sorted_by_before_inv a b l :
  ~ (0 < cmp b a)%Z ->
  Spec.before a b (sorted_by cmp l) -> Spec.before a b l.
Proof.
  intros Hba. induction l as [|x l IH]; simpl; [trivial|].
  intros H. apply insert_before_inv in H as [H|[[-> H]|(-> & _ & H)]].
  - apply before_tail, IH, H.
  - apply before_head. apply sorted_by_in, H.
  - contradiction.
Qed.

Lemma sorted_by_before a b l :
  ~ (0 < cmp a b)%Z ->
  Spec.before a b l -> Spec.before a b (sorted_by cmp l).
Proof.
  intros Hab. induction l as [|x l IH]; simpl; intros H.
  - destruct (before_nil H).
  - apply before_cons_inv in H as [[-> Hb]|H].
    + apply insert_stops; [apply sorted_by_in, Hb|exact Hab].
    + apply insert_before_keep, IH, H.
Qed.

(** *** Sortedness, for a comparator that is total and transitive *)

Hypothesis cmp_total : forall x y, (0 < cmp x y)%Z -> (cmp y x <= 0)%Z.
Hypothesis cmp_trans :
  forall x y z, (cmp x y <= 0)%Z -> (cmp y z <= 0)%Z -> (cmp x z <= 0)%Z.

Lemma insert_sorted x l :
  StronglySorted (fun u v => (cmp u v <= 0)%Z) l ->
  StronglySorted (fun u v => (cmp u v <= 0)%Z) (insert cmp x l).
Proof.
  induction 1 as [|y l Hl IH Hy]; simpl.
  - constructor; constructor.
  - destruct (Z.ltb 0 (cmp x y)) eqn:E.
    + apply Z.ltb_lt in E. constructor; [exact IH|].
      apply Forall_forall. intros z Hz.
      apply (Permutation_in _ (insert_perm x l)) in Hz.
      destruct Hz as [<-|Hz]; [apply cmp_total, E|].
      rewrite Forall_forall in Hy. apply Hy, Hz.
    + apply Z.ltb_ge in E. constructor; [constructor; assumption|].
      constructor; [exact E|].
      apply Forall_forall. intros z Hz. rewrite Forall_forall in Hy.
      apply (cmp_trans E), Hy, Hz.
Qed.

Lemma sorted_by_sorted l :
  StronglySorted (fun u v => (cmp u v <= 0)%Z) (sorted_by cmp l).
Proof.
  induction l as [|x l IH]; simpl; [constructor|].
  apply insert_sorted, IH.
Qed.

(** Among distinct elements, two arrangements that are both sorted and both
    keep the order that ties have in [l] are the same arrangement. *)
Lemma before_asym a b l :
  NoDup l -> Spec.before a b l -> Spec.before b a l -> False.
Proof.
  induction l as [|z l IH]; intros Hnd Hab Hba.
  - destruct (before_nil Hab).
  - inversion Hnd as [|? ? Hz Hl]; subst.
    apply before_cons_inv in Hab as [[-> Hb]|Hab];
      apply before_cons_inv in Hba as [[E Ha]|Hba].
    + subst. contradiction.
    + apply Hz. eapply before_in_r, Hba.
    + subst. apply Hz. eapply before_in_r, Hab.
    + exact (IH Hl Hab Hba).
Qed.

Lemma sorted_stable_unique l out1 :
  forall out2,
    NoDup l -> Permutation out1 out2 ->
    StronglySorted (fun u v => (cmp u v <= 0)%Z) out1 ->
    StronglySorted (fun u v => (cmp u v <= 0)%Z) out2 ->
    (forall a b, Spec.before a b out1 ->
                 (cmp a b <= 0)%Z -> (cmp b a <= 0)%Z -> Spec.before a b l) ->
    (forall a b, Spec.before a b out2 ->
                 (cmp a b <= 0)%Z -> (cmp b a <= 0)%Z -> Spec.before a b l) ->
    out1 = out2.
Proof.
  induction out1 as [|x t1 IH]; intros out2 Hnd Hperm Hs1 Hs2 Hst1 Hst2.
  - apply Permutation_nil in Hperm. subst. reflexivity.
  - destruct out2 as [|y t2].
    { apply Permutation_sym, Permutation_nil in Hperm. discriminate Hperm. }
    inversion Hs1 as [|? ? Hs1' Hx]; subst.
    inversion Hs2 as [|? ? Hs2' Hy]; subst.
    rewrite Forall_forall in Hx, Hy.
    assert (x = y) as ->.
    { assert (In x (y :: t2)) as [E|Hin2]
        by (apply (Permutation_in _ Hperm); left; reflexivity);
        [symmetry; exact E|].
      assert (In y (x :: t1)) as [E|Hin1]
        by (apply (Permutation_in _ (Permutation_sym Hperm)); left;
            reflexivity);
        [exact E|].
      exfalso. apply (@before_asym x y l Hnd).
      - apply Hst1; [apply before_head, Hin1|apply Hx, Hin1|apply Hy, Hin2].
      - apply Hst2; [apply before_head, Hin2|apply Hy, Hin2|apply Hx, Hin1]. }
    f_equal. apply IH; try assumption.
    + eapply Permutation_cons_inv, Hperm.
    + intros a b H. apply Hst1, before_tail, H.
    + intros a b H. apply Hst2, before_tail, H.
Qed.

(** Hence every sort that returns a sorted rearrangement in which ties keep
    their order returns what insertion returns. *)
Lemma stable_sort_unique l out :
  NoDup l -> Permutation out l ->
  StronglySorted (fun u v => (cmp u v <= 0)%Z) out ->
  (forall a b, Spec.before a b out ->
               (cmp a b <= 0)%Z -> (cmp b a <= 0)%Z -> Spec.before a b l) ->
  out = sorted_by cmp l.
Proof.
  intros Hnd Hperm Hs Hst.
  apply (@sorted_stable_unique l out (sorted_by cmp l)); try assumption.
  - rewrite Hperm. apply Permutation_sym, sorted_by_perm.
  - apply sorted_by_sorted.
  - intros a b H _ Hba. apply sorted_by_before_inv in H; [exact H|lia].
Qed.
End ListFacts.

(** *** The order of strings *)

Ltac order_cases :=
  repeat match goal with
  | H : context [if Z.ltb ?u ?v then _ else _] |- _ =>
      destruct (Z.ltb u v) eqn:?
  | |- context [if Z.ltb ?u ?v then _ else _] =>
      destruct (Z.ltb u v) eqn:?
  end;
  try reflexivity; try discriminate;
  repeat match goal with
  | H : Z.ltb _ _ = true |- _ => apply Z.ltb_lt in H
  | H : Z.ltb _ _ = false |- _ => apply Z.ltb_ge in H
  end;
  try lia.

Lemma String_ltb_asym a :
  forall b, String_ltb a b = true -> String_ltb b a = false.
Proof.
  induction a as [|x a IH]; intros [|y b]; simpl; intros H;
    try reflexivity; try discriminate; order_cases.
  apply IH, H.
Qed.

Lemma String_ltb_negtrans a :
  forall b c,
    String_ltb b a = false -> String_ltb c b = false -> String_ltb c a = false.
Proof.
  induction a as [|x a IH]; intros b c; destruct b as [|y b], c as [|z c];
    simpl; intros H1 H2; try reflexivity; try discriminate; order_cases.
  eapply IH; eassumption.
Qed.

Section IndexedFacts.
Variables A B : Type.

Lemma map_insert (f : A -> B) (cmp : B -> B -> Z) x l :
  map f (insert (fun u v => cmp (f u) (f v)) x l) = insert cmp (f x) (map f l).
Proof.
  induction l as [|y l IH]; simpl; [reflexivity|].
  destruct (Z.ltb 0 (cmp (f x) (f y))); simpl; [rewrite IH|]; reflexivity.
Qed.

Lemma map_sorted_by (f : A -> B) (cmp : B -> B -> Z) l :
  map f (sorted_by (fun u v => cmp (f u) (f v)) l) = sorted_by cmp (map f l).
Proof.
  induction l as [|x l IH]; simpl; [reflexivity|].
  rewrite map_insert, IH. reflexivity.
Qed.

Lemma map_filter (f : A -> B) (p : B -> bool) l :
  map f (filter (fun u => p (f u)) l) = filter p (map f l).
Proof.
  induction l as [|x l IH]; simpl; [reflexivity|].
  destruct (p (f x)); simpl; rewrite IH; reflexivity.
Qed.

Lemma map_snd_combine_seq (l : list A) s :
  map snd (combine (seq s (length l)) l) = l.
Proof.
  revert s. induction l as [|x l IH]; intros s; simpl; [reflexivity|].
  rewrite IH. reflexivity.
Qed.

Lemma map_fst_combine_seq (l : list A) s :
  map fst (combine (seq s (length l)) l) = seq s (length l).
Proof.
  revert s. induction l as [|x l IH]; intros s; simpl; [reflexivity|].
  rewrite IH. reflexivity.
Qed.

Lemma combine_seq_nth_error (l : list A) : forall s i x,
  In (i, x) (combine (seq s (length l)) l) ->
  s <= i /\ nth_error l (i - s) = Some x.
Proof.
  induction l as [|y l IH]; intros s i x; simpl; [contradiction|].
  intros [E|H].
  - injection E as -> ->. rewrite Nat.sub_diag. split; [lia|reflexivity].
  - apply IH in H as [H1 H2]. split; [lia|].
    replace (i - s) with (S (i - S s)) by lia. exact H2.
Qed.

Lemma before_combine_seq (l : list A) : forall s i j x y,
  Spec.before (i, x) (j, y) (combine (seq s (length l)) l) -> i < j.
Proof.
  induction l as [|z l IH]; intros s i j x y; simpl.
  - intros H. destruct (before_nil H).
  - intros H. apply before_cons_inv in H as [[E Hy]|H].
    + injection E as -> ->. apply combine_seq_nth_error in Hy. lia.
    + eapply IH, H.
Qed.

Lemma indexed_nth_error (l : list A) i x :
  In (i, x) (Spec.indexed l) -> nth_error l i = Some x.
Proof.
  intros H. apply combine_seq_nth_error in H as [_ H].
  rewrite Nat.sub_0_r in H. exact H.
Qed.

Lemma combine_seq_increasing (l : list A) : forall s,
  StronglySorted (fun u v : nat * A => fst u < fst v)
    (combine (seq s (length l)) l).
Proof.
  induction l as [|x l IH]; intros s; simpl; constructor; [apply IH|].
  apply Forall_forall. intros [i y] H.
  apply combine_seq_nth_error in H. simpl. lia.
Qed.

Lemma filter_increasing (R : A -> A -> Prop) (f : A -> bool) (l : list A) :
  StronglySorted R l -> StronglySorted R (filter f l).
Proof.
  induction 1 as [|x l Hl IH Hx]; simpl; [constructor|].
  destruct (f x); [|exact IH]. constructor; [exact IH|].
  rewrite Forall_forall in Hx. apply Forall_forall. intros y Hy.
  apply Hx. apply filter_In in Hy. tauto.
Qed.

Lemma increasing_before (g : A -> nat) (l : list A) u v :
  StronglySorted (fun a b => g a < g b) l ->
  In u l -> In v l -> g u < g v -> Spec.before u v l.
Proof.
  induction 1 as [|x l Hl IH Hx]; intros Hu Hv Huv; [contradiction|].
  rewrite Forall_forall in Hx.
  destruct Hu as [->|Hu].
  - destruct Hv as [->|Hv]; [lia|]. apply before_head, Hv.
  - destruct Hv as [->|Hv].
    + specialize (Hx u Hu). lia.
    + apply before_tail, IH; assumption.
Qed.

Lemma increasing_NoDup (g : A -> nat) (l : list A) :
  StronglySorted (fun a b => g a < g b) l -> NoDup l.
Proof.
  induction 1 as [|x l Hl IH Hx]; constructor; [|exact IH].
  intros Hin. rewrite Forall_forall in Hx. specialize (Hx x Hin). lia.
Qed.
End IndexedFacts.

(* ================================================================= *)
(** ** An engine that sorts by binary insertion

    The way V8 sorts an array of fewer than 64 elements: the run at the
    start of the array is found, and reversed if it descends; the other
    elements are put into it one by one, each at the position that a binary
    search in the run gives. *)

Module ShortArraySort.
Section Sort.
Variable A : Type.
Variable cmp : A -> A -> Z.

(** The number of elements of [rest] that continue the run ending in
    [previous]. *)
Fixpoint run_length (descending : bool) (previous : A) (rest : list A) : nat :=
  match rest with
  | [] => 0
  | current :: rest' =>
      let order := cmp current previous in
      if (if descending then Z.leb 0 order else Z.ltb order 0) then 0
      else S (run_length descending current rest')
  end.

(** The run at the start of the array, in ascending order, and the
    elements after it. *)
Definition count_and_make_run (l : list A) : list A * list A :=
  match l with
  | high :: low :: rest =>
      let descending := Z.ltb (cmp low high) 0 in
      let n := 2 + run_length descending low rest in
      (if descending then rev (firstn n l) else firstn n l, skipn n l)
  | _ => (l, [])
  end.

(** The search for the place of [pivot] between [left] and [right]: the
    pivot goes before the middle element if it compares less than it, and
    after it otherwise.  The interval shrinks at every step, so [fuel] as
    large as the interval is long lets the search finish
    ([binary_search_fuel]). *)
Fixpoint binary_search (fuel : nat) (pivot : A) (run : list A)
    (left right : nat) : nat :=
  match fuel with
  | O => left
  | S fuel' =>
      if Nat.ltb left right then
        let mid := left + Nat.div2 (right - left) in
        match nth_error run mid with
        | Some element =>
            if Z.ltb (cmp pivot element) 0
            then binary_search fuel' pivot run left mid
            else binary_search fuel' pivot run (S mid) right
        | None => left
        end
      else left
  end.

Definition binary_insert (run : list A) (pivot : A) : list A :=
  let k := binary_search (length run) pivot run 0 (length run) in
  firstn k run ++ pivot :: skipn k run.

Definition binary_insertion_sort (l : list A) : list A :=
  let (run, rest) := count_and_make_run l in
  fold_left binary_insert rest run.

Lemma binary_search_fuel fuel fuel' pivot run left right :
  right - left <= fuel -> right - left <= fuel' ->
  binary_search fuel pivot run left right
  = binary_search fuel' pivot run left right.
Proof.
  revert fuel' left right.
  induction fuel as [|fuel IH]; intros fuel' left right H H'.
  - destruct fuel' as [|fuel']; [reflexivity|]. cbn [binary_search].
    destruct (Nat.ltb left right) eqn:E; [|reflexivity].
    apply Nat.ltb_lt in E. lia.
  - destruct fuel' as [|fuel']; cbn [binary_search].
    + destruct (Nat.ltb left right) eqn:E; [|reflexivity].
      apply Nat.ltb_lt in E. lia.
    + destruct (Nat.ltb left right) eqn:E; [|reflexivity].
      apply Nat.ltb_lt in E.
      assert (Nat.div2 (right - left) < right - left) as Hhalf
        by (apply Nat.lt_div2; lia).
      destruct (nth_error run (left + Nat.div2 (right - left)));
        [|reflexivity].
      generalize dependent (Nat.div2 (right - left)). intros half Hhalf.
      destruct (Z.ltb (cmp pivot a) 0); apply IH; lia.
Qed.

(** *** The result holds the elements of the array *)

Lemma binary_insert_permutation run pivot :
  Permutation (binary_insert run pivot) (pivot :: run).
Proof.
  unfold binary_insert.
  set (k := binary_search _ _ _ _ _). clearbody k.
  apply Permutation_sym. rewrite <- (firstn_skipn k run) at 1.
  apply Permutation_middle.
Qed.

Lemma fold_binary_insert_permutation rest :
  forall run, Permutation (fold_left binary_insert rest run) (run ++ rest).
Proof.
  induction rest as [|x rest IH]; intros run; simpl.
  - rewrite app_nil_r. apply Permutation_refl.
  - eapply Permutation_trans; [apply IH|].
    eapply Permutation_trans;
      [apply Permutation_app_tail, binary_insert_permutation|].
    simpl. apply Permutation_middle.
Qed.

Lemma count_and_make_run_split l :
  exists n,
    snd (count_and_make_run l) = skipn n l
    /\ (fst (count_and_make_run l) = firstn n l
        \/ fst (count_and_make_run l) = rev (firstn n l)).
Proof.
  unfold count_and_make_run.
  destruct l as [|high [|low rest]].
  - exists 0. split; [reflexivity|left; reflexivity].
  - exists 1. split; [reflexivity|left; reflexivity].
  - exists (2 + run_length (Z.ltb (cmp low high) 0) low rest).
    split; [reflexivity|].
    destruct (Z.ltb (cmp low high) 0); [right|left]; reflexivity.
Qed.

Lemma count_and_make_run_permutation l :
  Permutation (fst (count_and_make_run l) ++ snd (count_and_make_run l)) l.
Proof.
  destruct (count_and_make_run_split l) as (n & -> & [-> | ->]).
  - rewrite firstn_skipn. apply Permutation_refl.
  - apply Permutation_trans with (firstn n l ++ skipn n l);
      [|rewrite firstn_skipn; apply Permutation_refl].
    apply Permutation_app_tail, Permutation_sym, Permutation_rev.
Qed.

Lemma binary_insertion_sort_permutation l :
  Permutation (binary_insertion_sort l) l.
Proof.
  unfold binary_insertion_sort.
  pose proof (count_and_make_run_permutation l) as H.
  destruct (count_and_make_run l) as [run rest]. simpl in H.
  eapply Permutation_trans; [apply fold_binary_insert_permutation|exact H].
Qed.
End Sort.

(** *** Sorting the images of a list

    A comparator that looks at the images of the elements under [f] sorts
    the elements as it sorts their images. *)
Section Images.
Variables A B : Type.
Variable f : A -> B.
Variable cmp : B -> B -> Z.

Lemma map_run_length descending rest :
  forall previous,
    run_length (fun u v => cmp (f u) (f v)) descending previous rest
    = run_length cmp descending (f previous) (map f rest).
Proof.
  induction rest as [|current rest IH]; intros previous; simpl;
    [reflexivity|].
  rewrite IH. reflexivity.
Qed.

Lemma map_count_and_make_run l :
  count_and_make_run cmp (map f l)
  = (map f (fst (count_and_make_run (fun u v => cmp (f u) (f v)) l)),
     map f (snd (count_and_make_run (fun u v => cmp (f u) (f v)) l))).
Proof.
  destruct l as [|high [|low rest]]; try reflexivity.
  unfold count_and_make_run. cbn [map]. rewrite <- map_run_length.
  change (f high :: f low :: map f rest) with (map f (high :: low :: rest)).
  rewrite firstn_map, skipn_map.
  destruct (Z.ltb (cmp (f low) (f high)) 0); cbn [fst snd];
    rewrite ?map_rev; reflexivity.
Qed.

Lemma map_binary_search fuel pivot run :
  forall left right,
    binary_search (fun u v => cmp (f u) (f v)) fuel pivot run left right
    = binary_search cmp fuel (f pivot) (map f run) left right.
Proof.
  induction fuel as [|fuel IH]; intros left right; cbn [binary_search];
    [reflexivity|].
  destruct (Nat.ltb left right); [|reflexivity].
  rewrite nth_error_map.
  destruct (nth_error run (left + Nat.div2 (right - left))); cbn [option_map];
    [|reflexivity].
  destruct (Z.ltb (cmp (f pivot) (f a)) 0); apply IH.
Qed.

Lemma map_binary_insert run pivot :
  map f (binary_insert (fun u v => cmp (f u) (f v)) run pivot)
  = binary_insert cmp (map f run) (f pivot).
Proof.
  unfold binary_insert. rewrite length_map, <- map_binary_search.
  rewrite map_app. cbn [map]. rewrite firstn_map, skipn_map. reflexivity.
Qed.

Lemma map_fold_binary_insert rest :
  forall run,
    map f (fold_left (binary_insert (fun u v => cmp (f u) (f v))) rest run)
    = fold_left (binary_insert cmp) (map f rest) (map f run).
Proof.
  induction rest as [|x rest IH]; intros run; simpl; [reflexivity|].
  rewrite IH, map_binary_insert. reflexivity.
Qed.

Lemma map_binary_insertion_sort l :
  map f (binary_insertion_sort (fun u v => cmp (f u) (f v)) l)
  = binary_insertion_sort cmp (map f l).
Proof.
  unfold binary_insertion_sort. rewrite map_count_and_make_run.
  destruct (count_and_make_run (fun u v => cmp (f u) (f v)) l) as [run rest].
  apply map_fold_binary_insert.
Qed.
End Images.

(** *** For a consistent comparator, binary insertion is a stable sort

    First for a comparator that is consistent on whatever elements it is
    given. *)
Section Stable.
Variable A : Type.
Variable cmp : A -> A -> Z.
Implicit Types (a b c x y z pivot : A).
Implicit Types (l run front back done rest : list A).
Hypothesis cmp_consistent : forall l, consistent_on cmp l.

Lemma consistent_refl a : cmp a a = 0%Z.
Proof.
  destruct (cmp_consistent [a] a a a) as (H & _);
    [left; reflexivity..|exact H].
Qed.

Lemma consistent_facts a b c :
  (cmp a b = 0%Z -> cmp b a = 0%Z)
  /\ (cmp a b = 0%Z -> cmp b c = 0%Z -> cmp a c = 0%Z)
  /\ ((cmp a b < 0)%Z -> (cmp b c < 0)%Z -> (cmp a c < 0)%Z)
  /\ ((cmp a b > 0)%Z -> (cmp b c > 0)%Z -> (cmp a c > 0)%Z).
Proof.
  destruct (cmp_consistent [a; b; c] a b c) as (_ & H);
    [simpl; auto..|exact H].
Qed.

Lemma consistent_lt_gt a b : (cmp a b < 0)%Z -> (cmp b a > 0)%Z.
Proof.
  intros H.
  destruct (consistent_facts a b a) as (_ & _ & Hlt & _).
  destruct (consistent_facts b a b) as (Hsym & _).
  pose proof (consistent_refl a) as Ha.
  destruct (Z.compare_spec (cmp b a) 0) as [E|E|E]; [| |lia].
  - specialize (Hsym E). lia.
  - specialize (Hlt H E). lia.
Qed.

Lemma consistent_gt_lt a b : (cmp a b > 0)%Z -> (cmp b a < 0)%Z.
Proof.
  intros H.
  destruct (consistent_facts a b a) as (_ & _ & _ & Hgt).
  destruct (consistent_facts b a b) as (Hsym & _).
  pose proof (consistent_refl a) as Ha.
  destruct (Z.compare_spec (cmp b a) 0) as [E|E|E]; [|lia|].
  - specialize (Hsym E). lia.
  - assert (cmp a a > 0)%Z by (apply Hgt; lia). lia.
Qed.

Lemma consistent_total x y : (0 < cmp x y)%Z -> (cmp y x <= 0)%Z.
Proof. intros H. pose proof (@consistent_gt_lt x y). lia. Qed.

Lemma consistent_ge_le x y : (0 <= cmp x y)%Z -> (cmp y x <= 0)%Z.
Proof.
  intros H. destruct (Z.eq_dec (cmp x y) 0) as [E|E].
  - destruct (consistent_facts x y x) as (Hsym & _). rewrite (Hsym E). lia.
  - apply consistent_total. lia.
Qed.

Lemma consistent_le_ge x y : (cmp x y <= 0)%Z -> (0 <= cmp y x)%Z.
Proof.
  intros H. destruct (Z.eq_dec (cmp x y) 0) as [E|E].
  - destruct (consistent_facts x y x) as (Hsym & _). rewrite (Hsym E). lia.
  - pose proof (@consistent_lt_gt x y). lia.
Qed.

Lemma consistent_trans x y z :
  (cmp x y <= 0)%Z -> (cmp y z <= 0)%Z -> (cmp x z <= 0)%Z.
Proof.
  intros Hxy Hyz.
  destruct (Z_le_gt_dec (cmp x z) 0) as [H|H]; [exact H|exfalso].
  pose proof (consistent_gt_lt H) as Hzx.
  destruct (consistent_facts x y z) as (_ & Heq & Hlt & _).
  destruct (Z.eq_dec (cmp x y) 0) as [E1|E1];
    destruct (Z.eq_dec (cmp y z) 0) as [E2|E2].
  - specialize (Heq E1 E2). lia.
  - destruct (consistent_facts y z x) as (_ & _ & Hlt' & _).
    destruct (consistent_facts x y x) as (Hsym & _).
    assert (cmp y x < 0)%Z by (apply Hlt'; lia).
    specialize (Hsym E1). lia.
  - destruct (consistent_facts z x y) as (_ & _ & Hlt' & _).
    destruct (consistent_facts y z y) as (Hsym & _).
    assert (cmp z y < 0)%Z by (apply Hlt'; lia).
    specialize (Hsym E2). lia.
  - assert (cmp x z < 0)%Z by (apply Hlt; lia). lia.
Qed.

Lemma consistent_lt_le p y z :
  (cmp p y < 0)%Z -> (cmp y z <= 0)%Z -> (cmp p z < 0)%Z.
Proof.
  intros Hpy Hyz.
  destruct (Z_lt_ge_dec (cmp p z) 0) as [H|H]; [exact H|exfalso].
  assert (cmp z p <= 0)%Z as Hzp by (apply consistent_ge_le; lia).
  pose proof (consistent_trans Hyz Hzp) as Hyp.
  pose proof (consistent_lt_gt Hpy). lia.
Qed.

Lemma consistent_ge_ge p y z :
  (0 <= cmp p y)%Z -> (cmp z y <= 0)%Z -> (0 <= cmp p z)%Z.
Proof.
  intros Hpy Hzy.
  apply consistent_le_ge. apply (consistent_trans Hzy).
  apply consistent_ge_le, Hpy.
Qed.

Lemma StronglySorted_nth (R : A -> A -> Prop) run :
  StronglySorted R run ->
  forall i j a b,
    i < j -> nth_error run i = Some a -> nth_error run j = Some b -> R a b.
Proof.
  induction 1 as [|x l Hl IH Hx]; intros i j a b Hij Hi Hj.
  - destruct i; discriminate Hi.
  - destruct j as [|j]; [lia|]. destruct i as [|i]; simpl in Hi, Hj.
    + injection Hi as <-. rewrite Forall_forall in Hx.
      apply Hx. eapply nth_error_In, Hj.
    + apply (IH i j); [lia|assumption|assumption].
Qed.

Lemma sorted_nth run i j a b :
  StronglySorted (fun u v => (cmp u v <= 0)%Z) run ->
  i <= j -> nth_error run i = Some a -> nth_error run j = Some b ->
  (cmp a b <= 0)%Z.
Proof.
  intros Hs Hij Hi Hj. destruct (Nat.eq_dec i j) as [->|Hne].
  - rewrite Hi in Hj. injection Hj as <-. rewrite consistent_refl. lia.
  - apply (StronglySorted_nth Hs (i := i) (j := j)); [lia|assumption..].
Qed.

(** The search ends between the elements that the pivot does not compare
    less than and those it compares less than. *)
Lemma binary_search_spec pivot run :
  StronglySorted (fun u v => (cmp u v <= 0)%Z) run ->
  forall fuel left right,
    right - left <= fuel -> left <= right -> right <= length run ->
    (forall j y, j < left -> nth_error run j = Some y ->
                 (0 <= cmp pivot y)%Z) ->
    (forall j y, right <= j -> nth_error run j = Some y ->
                 (cmp pivot y < 0)%Z) ->
    (forall j y, j < binary_search cmp fuel pivot run left right ->
                 nth_error run j = Some y -> (0 <= cmp pivot y)%Z)
    /\ (forall j y, binary_search cmp fuel pivot run left right <= j ->
                    nth_error run j = Some y -> (cmp pivot y < 0)%Z).
Proof.
  intros Hs. induction fuel as [|fuel IH];
    intros left right Hfuel Hlr Hlen Hlow Hhigh; cbn [binary_search].
  - split; [exact Hlow|].
    intros j y Hj. apply Hhigh. lia.
  - destruct (Nat.ltb left right) eqn:E.
    2:{ apply Nat.ltb_ge in E. split; [exact Hlow|].
        intros j y Hj. apply Hhigh. lia. }
    apply Nat.ltb_lt in E.
    assert (Nat.div2 (right - left) < right - left) as Hhalf
      by (apply Nat.lt_div2; lia).
    generalize dependent (Nat.div2 (right - left)). intros half Hhalf.
    destruct (nth_error run (left + half)) as [element|] eqn:Emid.
    2:{ apply nth_error_None in Emid. lia. }
    destruct (Z.ltb (cmp pivot element) 0) eqn:Ecmp.
    + apply Z.ltb_lt in Ecmp. apply IH; try lia; [exact Hlow|].
      intros j y Hj Hy.
      apply (consistent_lt_le Ecmp).
      apply (@sorted_nth run (left + half) j); auto.
    + apply Z.ltb_ge in Ecmp. apply IH; try lia; [|exact Hhigh].
      intros j y Hj Hy.
      apply (consistent_ge_ge Ecmp).
      apply (@sorted_nth run j (left + half)); auto. lia.
Qed.

Lemma binary_insert_spec run pivot :
  StronglySorted (fun u v => (cmp u v <= 0)%Z) run ->
  exists front back,
    run = front ++ back
    /\ binary_insert cmp run pivot = front ++ pivot :: back
    /\ (forall y, In y front -> (0 <= cmp pivot y)%Z)
    /\ (forall y, In y back -> (cmp pivot y < 0)%Z).
Proof.
  intros Hs. unfold binary_insert.
  assert (forall j y, j < 0 -> nth_error run j = Some y ->
                      (0 <= cmp pivot y)%Z) as Hnone
    by (intros j y Hj; lia).
  assert (forall j y, length run <= j -> nth_error run j = Some y ->
                      (cmp pivot y < 0)%Z) as Hpast.
  { intros j y Hj Hy.
    assert (nth_error run j <> None) as Hsome by congruence.
    apply nth_error_Some in Hsome. lia. }
  destruct (@binary_search_spec pivot run Hs (length run) 0 (length run)
              (Nat.le_sub_l _ _) (Nat.le_0_l _) (Nat.le_refl _) Hnone Hpast)
    as (Hlow & Hhigh).
  clear Hnone Hpast.
  set (k := binary_search cmp (length run) pivot run 0 (length run)) in *.
  clearbody k.
  exists (firstn k run), (skipn k run).
  split; [symmetry; apply firstn_skipn|]. split; [reflexivity|]. split.
  - intros y Hy. apply In_nth_error in Hy as (j & Hj).
    rewrite nth_error_firstn in Hj.
    destruct (Nat.ltb j k) eqn:E; [|discriminate Hj].
    apply Nat.ltb_lt in E. exact (Hlow j y E Hj).
  - intros y Hy. apply In_nth_error in Hy as (j & Hj).
    rewrite nth_error_skipn in Hj. apply (Hhigh (k + j) y); [lia|exact Hj].
Qed.

Lemma StronglySorted_middle front pivot back :
  StronglySorted (fun u v => (cmp u v <= 0)%Z) (front ++ back) ->
  (forall y, In y front -> (cmp y pivot <= 0)%Z) ->
  (forall y, In y back -> (cmp pivot y <= 0)%Z) ->
  StronglySorted (fun u v => (cmp u v <= 0)%Z) (front ++ pivot :: back).
Proof.
  induction front as [|x front IH]; simpl; intros Hs Hb Ha.
  - constructor; [exact Hs|]. apply Forall_forall, Ha.
  - inversion Hs as [|? ? Hs' Hx]; subst.
    constructor.
    + apply IH; [exact Hs'| |exact Ha].
      intros y Hy. apply Hb. right. exact Hy.
    + rewrite Forall_forall in *. intros y Hy.
      apply in_app_or in Hy as [Hy|[<-|Hy]].
      * apply Hx, in_or_app. left. exact Hy.
      * apply Hb. left. reflexivity.
      * apply Hx, in_or_app. right. exact Hy.
Qed.

Lemma before_middle_inv a b front pivot back :
  Spec.before a b (front ++ pivot :: back) ->
  Spec.before a b (front ++ back)
  \/ (In a front /\ b = pivot)
  \/ (a = pivot /\ In b back).
Proof.
  induction front as [|x front IH]; simpl; intros H.
  - apply before_cons_inv in H as [[-> Hb]|H]; auto.
  - apply before_cons_inv in H as [[-> Hb]|H].
    + apply in_app_or in Hb as [Hb|[<-|Hb]].
      * left. apply before_head, in_or_app. left. exact Hb.
      * right. left. split; [left|]; reflexivity.
      * left. apply before_head, in_or_app. right. exact Hb.
    + destruct (IH H) as [H1|[[H1 ->]|[-> H1]]].
      * left. apply before_tail, H1.
      * right. left. split; [right; exact H1|reflexivity].
      * right. right. split; [reflexivity|exact H1].
Qed.

Lemma before_app_l a b (l l' : list A) :
  Spec.before a b l -> Spec.before a b (l ++ l').
Proof.
  intros (l1 & l2 & l3 & ->). exists l1, l2, (l3 ++ l').
  rewrite <- !app_assoc. simpl. rewrite <- app_assoc. reflexivity.
Qed.

Lemma before_last a b (l : list A) : In a l -> Spec.before a b (l ++ [b]).
Proof.
  intros Ha. apply in_split in Ha as (l1 & l2 & ->).
  exists l1, l2, []. rewrite <- app_assoc. reflexivity.
Qed.

Lemma before_rev a b (l : list A) :
  Spec.before a b (rev l) -> Spec.before b a l.
Proof.
  intros (l1 & l2 & l3 & E).
  apply (f_equal (@rev A)) in E. rewrite rev_involutive in E.
  rewrite E. exists (rev l3), (rev l2), (rev l1).
  rewrite !rev_app_distr. simpl. rewrite !rev_app_distr. simpl.
  rewrite <- !app_assoc. reflexivity.
Qed.

(** The run is sorted, and elements that compare equal are in the order
    they have in the part of the array that was worked in. *)
Definition stable_run (run done : list A) : Prop :=
  Permutation run done
  /\ StronglySorted (fun u v => (cmp u v <= 0)%Z) run
  /\ (forall a b,
        Spec.before a b run -> (cmp a b <= 0)%Z -> (cmp b a <= 0)%Z ->
        Spec.before a b done).

Lemma binary_insert_stable run done pivot :
  stable_run run done ->
  stable_run (binary_insert cmp run pivot) (done ++ [pivot]).
Proof.
  intros (Hperm & Hs & Hst).
  destruct (binary_insert_spec pivot Hs)
    as (front & back & Erun & -> & Hb & Ha).
  subst run. split; [|split].
  - eapply Permutation_trans; [apply Permutation_sym, Permutation_middle|].
    eapply Permutation_trans; [apply perm_skip, Hperm|].
    apply Permutation_cons_append.
  - apply StronglySorted_middle; [exact Hs| |].
    + intros y Hy. apply consistent_ge_le, Hb, Hy.
    + intros y Hy. specialize (Ha y Hy). lia.
  - intros a b H Hab Hba.
    apply before_middle_inv in H as [H|[[H ->]|[-> H]]].
    + apply before_app_l, Hst; assumption.
    + apply before_last. apply (Permutation_in _ Hperm).
      apply in_or_app. left. exact H.
    + specialize (Ha b H). pose proof (consistent_lt_gt Ha). lia.
Qed.

Lemma fold_binary_insert_stable rest :
  forall run done,
    stable_run run done ->
    stable_run (fold_left (binary_insert cmp) rest run) (done ++ rest).
Proof.
  induction rest as [|x rest IH]; intros run done H; simpl.
  - rewrite app_nil_r. exact H.
  - replace (done ++ x :: rest) with ((done ++ [x]) ++ rest)
      by (rewrite <- app_assoc; reflexivity).
    apply IH, binary_insert_stable, H.
Qed.

(** The run at the start of the array. *)
Lemma run_length_chain (descending : bool) rest :
  forall previous,
    Sorted (fun u v =>
              if descending then (cmp v u < 0)%Z else (0 <= cmp v u)%Z)
      (previous :: firstn (run_length cmp descending previous rest) rest).
Proof.
  induction rest as [|current rest IH]; intros previous; simpl.
  - constructor; constructor.
  - destruct descending.
    + destruct (Z.leb 0 (cmp current previous)) eqn:E; simpl.
      * constructor; constructor.
      * apply Z.leb_gt in E. constructor; [apply IH|].
        constructor. exact E.
    + destruct (Z.ltb (cmp current previous) 0) eqn:E; simpl.
      * constructor; constructor.
      * apply Z.ltb_ge in E. constructor; [apply IH|].
        constructor. exact E.
Qed.

Lemma StronglySorted_rev (R : A -> A -> Prop) (l : list A) :
  StronglySorted R l -> StronglySorted (fun u v => R v u) (rev l).
Proof.
  induction 1 as [|x l Hl IH Hx]; simpl; [constructor|].
  replace (rev l ++ [x]) with (rev l ++ x :: []) by reflexivity.
  clear Hl. rewrite Forall_forall in Hx.
  assert (forall y, In y (rev l) -> R x y) as Hx'
    by (intros y Hy; apply Hx, in_rev, Hy).
  clear Hx. induction IH as [|y t Ht IHt Hy]; simpl.
  - constructor; constructor.
  - constructor.
    + apply IHt. intros z Hz. apply Hx'. right. exact Hz.
    + rewrite Forall_forall in *. intros z Hz.
      apply in_app_or in Hz as [Hz|[<-|[]]].
      * apply Hy, Hz.
      * apply Hx'. left. reflexivity.
Qed.

Lemma StronglySorted_weaken (R R' : A -> A -> Prop) (l : list A) :
  (forall u v, R u v -> R' u v) ->
  StronglySorted R l -> StronglySorted R' l.
Proof.
  intros H. induction 1 as [|x l Hl IH Hx]; constructor; [exact IH|].
  rewrite Forall_forall in *. intros y Hy. apply H, Hx, Hy.
Qed.

Lemma StronglySorted_before_rel (R : A -> A -> Prop) (l : list A) a b :
  StronglySorted R l -> Spec.before a b l -> R a b.
Proof.
  induction 1 as [|x l Hl IH Hx]; intros H.
  - destruct (before_nil H).
  - apply before_cons_inv in H as [[-> Hb]|H].
    + rewrite Forall_forall in Hx. apply Hx, Hb.
    + apply IH, H.
Qed.

Lemma count_and_make_run_stable l :
  exists done,
    l = done ++ snd (count_and_make_run cmp l)
    /\ stable_run (fst (count_and_make_run cmp l)) done.
Proof.
  destruct l as [|high [|low rest]].
  - exists []. split; [reflexivity|].
    split; [apply Permutation_refl|]. split; [constructor|auto].
  - exists [high]. split; [reflexivity|].
    split; [apply Permutation_refl|].
    split; [constructor; constructor|auto].
  - unfold count_and_make_run.
    set (descending := Z.ltb (cmp low high) 0).
    set (k := run_length cmp descending low rest).
    exists (firstn (2 + k) (high :: low :: rest)).
    split; [symmetry; apply firstn_skipn|].
    assert (Sorted (fun u v =>
                      if descending then (cmp v u < 0)%Z
                      else (0 <= cmp v u)%Z)
              (firstn (2 + k) (high :: low :: rest))) as Hchain.
    { simpl. constructor; [apply run_length_chain|]. constructor.
      unfold descending. destruct (Z.ltb (cmp low high) 0) eqn:E.
      - apply Z.ltb_lt, E.
      - apply Z.ltb_ge, E. }
    clearbody k. set (run := firstn (2 + k) (high :: low :: rest)) in *.
    clearbody run. cbn [fst snd].
    destruct descending.
    + apply Sorted_StronglySorted in Hchain.
      2:{ intros x y z Hxy Hyz.
          destruct (consistent_facts z y x) as (_ & _ & Hlt & _). auto. }
      split; [apply Permutation_sym, Permutation_rev|]. split.
      * apply StronglySorted_rev in Hchain.
        eapply StronglySorted_weaken; [|exact Hchain].
        simpl. intros u v H. lia.
      * intros a b H Hab Hba. exfalso.
        apply before_rev in H.
        pose proof (StronglySorted_before_rel Hchain H) as Hlt.
        simpl in Hlt. pose proof (consistent_lt_gt Hlt). lia.
    + apply Sorted_StronglySorted in Hchain.
      2:{ intros x y z Hxy Hyz. simpl in *.
          apply consistent_le_ge.
          apply (@consistent_trans x y z); apply consistent_ge_le;
            assumption. }
      split; [apply Permutation_refl|]. split; [|auto].
      eapply StronglySorted_weaken; [|exact Hchain].
      simpl. intros u v H. apply consistent_ge_le, H.
Qed.

Lemma binary_insertion_sort_stable l :
  stable_run (binary_insertion_sort cmp l) l.
Proof.
  unfold binary_insertion_sort.
  destruct (count_and_make_run_stable l) as (done & E & H).
  destruct (count_and_make_run cmp l) as [run rest]. simpl in E, H.
  rewrite E. apply fold_binary_insert_stable, H.
Qed.

(** So it returns, of distinct elements, the stable sorted arrangement. *)
Lemma binary_insertion_sort_distinct l :
  NoDup l -> binary_insertion_sort cmp l = sorted_by cmp l.
Proof.
  intros Hnd.
  destruct (binary_insertion_sort_stable l) as (Hperm & Hs & Hst).
  apply stable_sort_unique; try assumption.
  - apply consistent_total.
  - apply consistent_trans.
Qed.
End Stable.

(** *** The same for a comparator that is consistent on the array

    The array is sorted through the positions of its elements, which are
    distinct, and on which the comparator of the elements is consistent
    throughout. *)
Section Positions.
Variable A : Type.
Variable cmp : A -> A -> Z.

Lemma map_nth_seq (l : list A) d :
  map (fun i => nth i l d) (seq 0 (length l)) = l.
Proof.
  induction l as [|x l IH]; simpl; [reflexivity|].
  f_equal. rewrite <- seq_shift, map_map. exact IH.
Qed.

Lemma binary_insertion_sort_consistent l :
  consistent_on cmp l -> binary_insertion_sort cmp l = sorted_by cmp l.
Proof.
  intros H. destruct l as [|d l']; [reflexivity|].
  set (l := d :: l') in *.
  set (f := fun i => nth i l d).
  assert (forall i, In (f i) l) as Hf.
  { intros i. unfold f. destruct (nth_in_or_default i l d) as [Hi|E].
    - exact Hi.
    - rewrite E. left. reflexivity. }
  rewrite <- (map_nth_seq l d). fold f.
  rewrite <- map_binary_insertion_sort.
  rewrite <- (map_sorted_by f cmp).
  f_equal. apply binary_insertion_sort_distinct; [|apply seq_NoDup].
  intros positions a b c _ _ _. apply (H (f a) (f b) (f c)); apply Hf.
Qed.
End Positions.

(** The runtime of such an engine: it sorts as the language requires where
    the language requires something.  Strings are treated as by
    [basic_runtime]. *)
Definition binary_insertion_runtime : Runtime :=
  {| toLowerCase := map lower_unit;
     Number := digits_value 0;
     sort := binary_insertion_sort;
     sort_permutation := binary_insertion_sort_permutation;
     sort_consistent := binary_insertion_sort_consistent |}.

End ShortArraySort.

(* ================================================================= *)
(** ** The search and filter engine *)

Module CustomerListSpec.
Import CustomerList.

Section Engine.
Context {rt : Runtime}.

Lemma constraint_if_present q test :
  Spec.constraint q test =
  match if_present q with
  | Some s => test s
  | None => true
  end.
Proof. destruct q as [[|c s]|]; reflexivity. Qed.

Lemma filter_filter (A : Type) (p q : A -> bool) l :
  filter q (filter p l) = filter (fun x => p x && q x) l.
Proof.
  induction l as [|x l IH]; simpl; [reflexivity|].
  destruct (p x); simpl; [destruct (q x)|]; rewrite IH; reflexivity.
Qed.

Lemma filter_true (A : Type) (l : list A) : filter (fun _ => true) l = l.
Proof. induction l as [|x l IH]; simpl; [|rewrite IH]; reflexivity. Qed.

Lemma satisfies_if_present sp c :
  Spec.satisfies sp c =
  match if_present (SearchParams.name sp) with
  | Some s => Spec.includes_ignoring_case (Customer.name c) s
  | None => true
  end
  && match if_present (SearchParams.postal_code sp) with
     | Some s => String_includes (Customer.postal_code c) s
     | None => true
     end
  && match if_present (SearchParams.address sp) with
     | Some s => Spec.includes_ignoring_case (Customer.address c) s
     | None => true
     end
  && match if_present (SearchParams.phone sp) with
     | Some s => String_includes (Customer.phone c) s
     | None => true
     end
  && match if_present (SearchParams.contract_type sp) with
     | Some s => String_eqb (ContractType_string (Customer.contract_type c)) s
     | None => true
     end.
Proof. unfold Spec.satisfies. rewrite !constraint_if_present. reflexivity. Qed.

(** What one evaluation returns, and what it leaves in the array it was
    given. *)
Lemma evaluate_eq cs sp field dir :
  evaluate cs sp field dir =
  (sort (compare field dir) (filter (Spec.satisfies sp) cs),
   if Spec.unconstrained sp
   then sort (compare field dir) cs
   else cs).
Proof.
  unfold evaluate, filteredAndSortedCustomers, Spec.unconstrained.
  rewrite (filter_ext _ _ (satisfies_if_present sp)).
  unfold bind, ret, Array_filter, Array_sort, Spec.includes_ignoring_case.
  destruct (if_present (SearchParams.name sp));
    destruct (if_present (SearchParams.postal_code sp));
    destruct (if_present (SearchParams.address sp));
    destruct (if_present (SearchParams.phone sp));
    destruct (if_present (SearchParams.contract_type sp));
    cbn [length app deref nth assign fst snd];
    rewrite ?filter_filter;
    (f_equal; f_equal;
     first [ apply filter_ext
           | rewrite <- (filter_true cs) at 1; apply filter_ext ];
     intros c; rewrite ?andb_true_r, ?andb_true_l, <- ?andb_assoc;
     reflexivity).
Qed.

Lemma compare_zero_sym field dir a b :
  compare field dir a b = 0%Z -> compare field dir b a = 0%Z.
Proof.
  unfold compare, JS.gt.
  destruct (JS.lt (Customer.get a field) (Customer.get b field)),
           (JS.lt (Customer.get b field) (Customer.get a field)), dir;
    intros H; try reflexivity; discriminate H.
Qed.

Lemma sort_in (A : Type) (cmp : A -> A -> Z) (l : list A) x :
  In x (sort cmp l) <-> In x l.
Proof.
  split; apply Permutation_in;
    [apply sort_permutation|apply Permutation_sym, sort_permutation].
Qed.

(** *** The comparator on values it can order

    Under one key the records hold strings, or they hold numbers; a
    number is ranked as the string of one code unit. *)
Definition rank (v : value) : jsstring :=
  match v with
  | VString s => s
  | VNumber (Num z) => [z]
  | _ => []
  end.

Definition three_way (dir : SortDirection) (s t : jsstring) : Z :=
  if String_ltb s t then
    match dir with asc => (-1)%Z | desc => 1%Z end
  else if String_ltb t s then
    match dir with asc => 1%Z | desc => (-1)%Z end
  else 0%Z.

Lemma lt_rank field a b :
  Spec.comparable (Customer.get a field) = true ->
  Spec.comparable (Customer.get b field) = true ->
  JS.lt (Customer.get a field) (Customer.get b field)
  = String_ltb (rank (Customer.get a field)) (rank (Customer.get b field)).
Proof.
  assert (forall x y : Z, Z.ltb x y = String_ltb [x] [y]) as Hnum
    by (intros x y; simpl; destruct (Z.ltb x y), (Z.ltb y x); reflexivity).
  destruct field; simpl; try reflexivity.
  - destruct (Customer.snow_removal_area a), (Customer.snow_removal_area b);
      intros Ha Hb; try discriminate; apply Hnum.
  - destruct (Customer.billing_amount a), (Customer.billing_amount b);
      intros Ha Hb; try discriminate; apply Hnum.
  - destruct (Customer.lat a) as [[|x]|], (Customer.lat b) as [[|y]|];
      intros Ha Hb; try discriminate; apply Hnum.
  - destruct (Customer.lng a) as [[|x]|], (Customer.lng b) as [[|y]|];
      intros Ha Hb; try discriminate; apply Hnum.
Qed.

Lemma compare_rank field dir a b :
  Spec.comparable (Customer.get a field) = true ->
  Spec.comparable (Customer.get b field) = true ->
  compare field dir a b
  = three_way dir (rank (Customer.get a field)) (rank (Customer.get b field)).
Proof.
  intros Ha Hb. unfold compare, JS.gt, three_way.
  rewrite (lt_rank _ _ _ Ha Hb), (lt_rank _ _ _ Hb Ha). reflexivity.
Qed.

Lemma String_ltb_irrefl s : String_ltb s s = false.
Proof.
  destruct (String_ltb s s) eqn:E; [|reflexivity].
  pose proof (@String_ltb_asym _ _ E) as H. congruence.
Qed.

Lemma String_ltb_trans s t u :
  String_ltb s t = true -> String_ltb t u = true -> String_ltb s u = true.
Proof.
  intros H1 H2. destruct (String_ltb s u) eqn:E; [reflexivity|].
  pose proof (@String_ltb_negtrans t u s (@String_ltb_asym _ _ H2) E) as H.
  congruence.
Qed.

Lemma three_way_consistent dir s t u :
  three_way dir s s = 0%Z
  /\ (three_way dir s t = 0%Z -> three_way dir t s = 0%Z)
  /\ (three_way dir s t = 0%Z -> three_way dir t u = 0%Z ->
      three_way dir s u = 0%Z)
  /\ ((three_way dir s t < 0)%Z -> (three_way dir t u < 0)%Z ->
      (three_way dir s u < 0)%Z)
  /\ ((three_way dir s t > 0)%Z -> (three_way dir t u > 0)%Z ->
      (three_way dir s u > 0)%Z).
Proof.
  unfold three_way. rewrite String_ltb_irrefl.
  pose proof (@String_ltb_asym s t) as A1.
  pose proof (@String_ltb_asym t s) as A2.
  pose proof (@String_ltb_asym t u) as A3.
  pose proof (@String_ltb_asym u t) as A4.
  pose proof (@String_ltb_asym s u) as A5.
  pose proof (@String_ltb_asym u s) as A6.
  pose proof (@String_ltb_trans s t u) as T1.
  pose proof (@String_ltb_trans u t s) as T2.
  pose proof (@String_ltb_negtrans s t u) as N1.
  pose proof (@String_ltb_negtrans u t s) as N2.
  destruct (String_ltb s t), (String_ltb t s), (String_ltb t u),
    (String_ltb u t), (String_ltb s u), (String_ltb u s), dir;
    repeat match goal with
    | H : ?x = ?x -> _ |- _ => specialize (H eq_refl)
    end;
    try discriminate;
    repeat split; intros; try reflexivity; try lia; try discriminate.
Qed.

(** On records whose values under the key it can order, the comparator
    is consistent. *)
Lemma compare_consistent field dir l :
  (forall c, In c l -> Spec.comparable (Customer.get c field) = true) ->
  consistent_on (compare field dir) l.
Proof.
  intros H a b c Ha Hb Hc.
  rewrite !compare_rank by (apply H; assumption).
  apply three_way_consistent.
Qed.

Lemma string_key_comparable field c :
  Spec.string_key field = true ->
  Spec.comparable (Customer.get c field) = true.
Proof. destruct field; intros H; try discriminate H; reflexivity. Qed.

(** There the engine returns the stable sorted arrangement. *)
Lemma evaluate_comparable cs sp field dir :
  (forall c, In c cs -> Spec.satisfies sp c = true ->
             Spec.comparable (Customer.get c field) = true) ->
  fst (evaluate cs sp field dir)
  = sorted_by (compare field dir) (filter (Spec.satisfies sp) cs).
Proof.
  intros H. rewrite evaluate_eq. simpl fst.
  apply sort_consistent, compare_consistent.
  intros c Hc. apply filter_In in Hc as [Hc Hs]. apply H; assumption.
Qed.

Lemma evaluate_string_key cs sp field dir :
  Spec.string_key field = true ->
  fst (evaluate cs sp field dir)
  = sorted_by (compare field dir) (filter (Spec.satisfies sp) cs).
Proof.
  intros Hkey. apply evaluate_comparable.
  intros c _ _. apply string_key_comparable, Hkey.
Qed.

Lemma NoDup_map_filter (A B : Type) (f : A -> B) (q : A -> bool) l :
  NoDup (map f l) -> NoDup (map f (filter q l)).
Proof.
  induction l as [|x l IH]; simpl; intros H; [constructor|].
  inversion H as [|? ? Hx Hl]; subst.
  destruct (q x); simpl; [|apply IH, Hl].
  constructor; [|apply IH, Hl].
  intros Hin. apply Hx. apply in_map_iff in Hin as (y & E & Hy).
  apply in_map_iff. exists y. split; [exact E|].
  apply filter_In in Hy. tauto.
Qed.

Lemma Forall2_fst_snd (A B : Type) (R : A -> B -> Prop) (l : list (A * B)) :
  (forall u, In u l -> R (fst u) (snd u)) ->
  Forall2 R (map fst l) (map snd l).
Proof.
  induction l as [|u l IH]; simpl; intros H; constructor.
  - apply H. left. reflexivity.
  - apply IH. intros v Hv. apply H. right. exact Hv.
Qed.

Lemma traced_result cs sp field dir :
  (forall c, In c cs -> Spec.satisfies sp c = true ->
             Spec.comparable (Customer.get c field) = true) ->
  map snd (Spec.traced cs sp field dir) = fst (evaluate cs sp field dir).
Proof.
  intros Hcmp. unfold Spec.traced, Spec.indexed.
  rewrite (evaluate_comparable _ _ _ _ Hcmp).
  rewrite (map_sorted_by snd (compare field dir)).
  rewrite (map_filter snd (Spec.satisfies sp)).
  rewrite map_snd_combine_seq. reflexivity.
Qed.

Lemma traced_in cs sp field dir u :
  In u (Spec.traced cs sp field dir) -> nth_error cs (fst u) = Some (snd u).
Proof.
  unfold Spec.traced. intros H. apply sorted_by_in, filter_In in H as [H _].
  destruct u as [i c]. apply indexed_nth_error, H.
Qed.

Lemma traced_NoDup cs sp field dir :
  NoDup (map fst (Spec.traced cs sp field dir)).
Proof.
  unfold Spec.traced.
  eapply Permutation_NoDup.
  - apply Permutation_map, Permutation_sym, sorted_by_perm.
  - apply NoDup_map_filter. unfold Spec.indexed.
    rewrite map_fst_combine_seq. apply seq_NoDup.
Qed.

(** C1. The engine returns exactly the records that satisfy all the
    supplied predicates together: the result is a rearrangement of the
    records of the collection that pass every predicate (name and address
    by substring without regard to case, postal code and phone by
    substring, contract tier by equality), where an absent or empty
    predicate value constrains nothing.  In particular, of a record named
    A with the basic tier and a record named B with the premium tier, the
    predicate [{ contract_type: "premium" }] keeps exactly B. *)
Theorem filter_returns_exactly_the_matching_records :
  forall cs sp field dir,
    Permutation (fst (evaluate cs sp field dir))
      (filter (Spec.satisfies sp) cs)
    /\ (forall c, In c (fst (evaluate cs sp field dir))
                  <-> In c cs /\ Spec.satisfies sp c = true)
    /\ (forall a b,
          fst (evaluate
                 [Spec.named a (js "A") basic; Spec.named b (js "B") premium]
                 (Spec.by_contract_type (js "premium")) field dir)
          = [Spec.named b (js "B") premium]).
Proof.
  intros cs sp field dir. split; [|split].
  - rewrite evaluate_eq. apply sort_permutation.
  - intros c. rewrite evaluate_eq. simpl fst.
    rewrite sort_in. apply filter_In.
  - intros a b. rewrite evaluate_eq. simpl fst.
    apply Permutation_length_1_inv, Permutation_sym.
    exact (sort_permutation _ [Spec.named b (js "B") premium]).
Qed.

(** C9, for the sort keys under which the records can be ordered.  When
    every record that the filter keeps holds a string, or a number other
    than [NaN], under the sort key, the sort is stable.  The result lists
    the records found at the positions [perm] of the collection, each
    position at most once, and two records of the result that compare
    equal under the sort key come from positions in the same order; said
    without positions, a record that precedes another one in the
    collection, both of them kept by the filter and equal under the sort
    key, precedes it in the result. *)
Theorem sort_is_stable_where_values_are_ordered :
  forall cs sp field dir,
    (forall c, In c cs -> Spec.satisfies sp c = true ->
               Spec.comparable (Customer.get c field) = true) ->
    exists perm : list nat,
      NoDup perm
      /\ Forall2 (fun i c => nth_error cs i = Some c) perm
           (fst (evaluate cs sp field dir))
      /\ (forall p q i j a b,
            p < q ->
            nth_error perm p = Some i -> nth_error perm q = Some j ->
            nth_error cs i = Some a -> nth_error cs j = Some b ->
            compare field dir a b = 0%Z ->
            i < j)
      /\ (forall a b,
            Spec.before a b cs ->
            Spec.satisfies sp a = true -> Spec.satisfies sp b = true ->
            compare field dir a b = 0%Z ->
            Spec.before a b (fst (evaluate cs sp field dir))).
Proof.
  intros cs sp field dir Hcmp.
  exists (map fst (Spec.traced cs sp field dir)).
  split; [apply traced_NoDup|]. split; [|split].
  - rewrite <- (traced_result _ _ _ _ Hcmp). apply Forall2_fst_snd.
    intros u. apply traced_in.
  - intros p q i j a b Hpq Hp Hq Ha Hb Hab.
    rewrite nth_error_map in Hp, Hq.
    destruct (nth_error (Spec.traced cs sp field dir) p) as [[i' a']|] eqn:Ep;
      [|discriminate Hp].
    destruct (nth_error (Spec.traced cs sp field dir) q) as [[j' b']|] eqn:Eq;
      [|discriminate Hq].
    simpl in Hp, Hq. injection Hp as ->. injection Hq as ->.
    pose proof (traced_in _ _ _ _ _ (nth_error_In _ _ Ep)) as Ha'.
    pose proof (traced_in _ _ _ _ _ (nth_error_In _ _ Eq)) as Hb'.
    simpl in Ha', Hb'.
    assert (a' = a) as -> by congruence.
    assert (b' = b) as -> by congruence.
    pose proof (nth_error_before _ Hpq Ep Eq) as H.
    unfold Spec.traced in H. apply sorted_by_before_inv in H.
    + apply before_filter in H. eapply before_combine_seq, H.
    + simpl. rewrite (compare_zero_sym _ _ _ _ Hab). lia.
  - intros a b H Ha Hb Hab. rewrite (evaluate_comparable _ _ _ _ Hcmp).
    apply sorted_by_before; [rewrite Hab; lia|].
    apply filter_before; assumption.
Qed.

(** On a key with string values the comparator compares the two strings,
    and is total and transitive. *)
Lemma compare_string_key field dir a b :
  Spec.string_key field = true ->
  compare field dir a b =
  if String_ltb (Spec.key_string field a) (Spec.key_string field b)
  then match dir with asc => (-1)%Z | desc => 1%Z end
  else if String_ltb (Spec.key_string field b) (Spec.key_string field a)
       then match dir with asc => 1%Z | desc => (-1)%Z end
       else 0%Z.
Proof.
  intros H. unfold compare, Spec.key_string.
  destruct field; try discriminate H; reflexivity.
Qed.

Lemma compare_le_string_key field dir a b :
  Spec.string_key field = true ->
  (compare field dir a b <= 0)%Z <->
  match dir with
  | asc => String_ltb (Spec.key_string field b) (Spec.key_string field a)
  | desc => String_ltb (Spec.key_string field a) (Spec.key_string field b)
  end = false.
Proof.
  intros Hkey. rewrite (@compare_string_key field dir a b Hkey).
  destruct (String_ltb (Spec.key_string field a) (Spec.key_string field b))
    eqn:E1;
    [rewrite (@String_ltb_asym _ _ E1)|];
    destruct (String_ltb (Spec.key_string field b) (Spec.key_string field a));
    destruct dir; split; intros H; try reflexivity; try discriminate H; lia.
Qed.

Lemma compare_total_string_key field dir x y :
  Spec.string_key field = true ->
  (0 < compare field dir x y)%Z -> (compare field dir y x <= 0)%Z.
Proof.
  intros Hkey H. apply (@compare_le_string_key field dir y x Hkey).
  rewrite (@compare_string_key field dir x y Hkey) in H.
  destruct (String_ltb (Spec.key_string field x) (Spec.key_string field y))
    eqn:E1;
    [rewrite (@String_ltb_asym _ _ E1) in *|];
    destruct (String_ltb (Spec.key_string field y) (Spec.key_string field x));
    destruct dir; try reflexivity; lia.
Qed.

Lemma compare_trans_string_key field dir x y z :
  Spec.string_key field = true ->
  (compare field dir x y <= 0)%Z -> (compare field dir y z <= 0)%Z ->
  (compare field dir x z <= 0)%Z.
Proof.
  intros Hkey Hxy Hyz.
  apply (@compare_le_string_key field dir x y Hkey) in Hxy.
  apply (@compare_le_string_key field dir y z Hkey) in Hyz.
  apply (@compare_le_string_key field dir x z Hkey).
  destruct dir.
  - exact (@String_ltb_negtrans _ _ _ Hxy Hyz).
  - exact (@String_ltb_negtrans _ _ _ Hyz Hxy).
Qed.

Lemma compare_tie_string_key field dir a b :
  Spec.string_key field = true ->
  (compare field dir a b <= 0)%Z -> (compare field dir b a <= 0)%Z ->
  compare field dir a b = 0%Z.
Proof.
  intros Hkey Hab Hba.
  apply (@compare_le_string_key field dir a b Hkey) in Hab.
  apply (@compare_le_string_key field dir b a Hkey) in Hba.
  rewrite (@compare_string_key field dir a b Hkey).
  destruct dir; rewrite Hab, Hba; reflexivity.
Qed.

(** Sorted by a key with string values, the result is in the order of
    that key, ascending or descending as asked. *)
Lemma result_sorted_by_string_key cs sp field dir :
  Spec.string_key field = true ->
  StronglySorted (fun a b => (compare field dir a b <= 0)%Z)
    (fst (evaluate cs sp field dir)).
Proof.
  intros Hkey. rewrite (@evaluate_string_key cs sp field dir Hkey).
  apply sorted_by_sorted.
  - intros x y. apply compare_total_string_key, Hkey.
  - intros x y z. apply compare_trans_string_key, Hkey.
Qed.

(** For such a key the sorting algorithm does not matter: whatever
    arrangement of the kept records is sorted by the key and keeps ties in
    the order of their positions is the arrangement the engine returns. *)
Lemma string_key_order_is_determined cs sp field dir out :
  Spec.string_key field = true ->
  Permutation out
    (filter (fun u => Spec.satisfies sp (snd u)) (Spec.indexed cs)) ->
  StronglySorted (fun u v => (compare field dir (snd u) (snd v) <= 0)%Z) out ->
  (forall u v, Spec.before u v out ->
               compare field dir (snd u) (snd v) = 0%Z -> fst u < fst v) ->
  out = Spec.traced cs sp field dir.
Proof.
  intros Hkey Hperm Hsorted Hstable. unfold Spec.traced.
  assert (StronglySorted (fun u v : nat * Customer.t => fst u < fst v)
            (filter (fun u => Spec.satisfies sp (snd u)) (Spec.indexed cs)))
    as Hinc by (apply filter_increasing, combine_seq_increasing).
  apply stable_sort_unique; try assumption.
  - intros x y. apply compare_total_string_key, Hkey.
  - intros x y z. apply compare_trans_string_key, Hkey.
  - apply (increasing_NoDup fst), Hinc.
  - intros a b Hab H1 H2.
    apply (increasing_before fst); try assumption.
    + apply (Permutation_in _ Hperm). eapply before_in_l, Hab.
    + apply (Permutation_in _ Hperm). eapply before_in_r, Hab.
    + apply Hstable; [exact Hab|].
      apply compare_tie_string_key; assumption.
Qed.

(** The part of C2 that holds: with some predicate supplied, the engine
    works on a fresh array and the collection stays as it was. *)
Lemma filtered_view_leaves_input cs sp field dir :
  Spec.unconstrained sp = false ->
  snd (evaluate cs sp field dir) = cs.
Proof. intros H. rewrite evaluate_eq, H. reflexivity. Qed.

(** With no predicate supplied the array that is sorted is the
    collection itself. *)
Lemma unfiltered_view_sorts_input cs sp field dir :
  Spec.unconstrained sp = true ->
  snd (evaluate cs sp field dir) = fst (evaluate cs sp field dir)
  /\ snd (evaluate cs sp field dir) = sort (compare field dir) cs.
Proof.
  intros H. rewrite evaluate_eq, H. simpl. split; [|reflexivity].
  f_equal. rewrite <- (filter_true cs) at 1.
  apply filter_ext. intros c. rewrite satisfies_if_present.
  unfold Spec.unconstrained in H.
  destruct (if_present (SearchParams.name sp));
    destruct (if_present (SearchParams.postal_code sp));
    destruct (if_present (SearchParams.address sp));
    destruct (if_present (SearchParams.phone sp));
    destruct (if_present (SearchParams.contract_type sp));
    (discriminate H || reflexivity).
Qed.
End Engine.

(** The engine at work on the records Sato, Kato and Abe. *)
Example search_by_name_ignores_case :
  fst (@evaluate basic_runtime [Scenario.sato; Scenario.kato; Scenario.abe]
         (SearchParams.mk None (Some (js "kA")) None None None None)
         Customer.k_name asc)
  = [Scenario.kato].
Proof. reflexivity. Qed.

Example sort_by_name_ascending :
  fst (@evaluate basic_runtime [Scenario.sato; Scenario.kato; Scenario.abe]
         SearchParams.empty Customer.k_name asc)
  = [Scenario.abe; Scenario.kato; Scenario.sato].
Proof. reflexivity. Qed.

(** C9 as it is stated, for every sort key, fails on an engine that sorts
    by binary insertion.  Sorted by latitude in ascending order, Hara, who
    has no latitude, and Fuji compare equal, and Hara comes first in the
    collection; in the result Fuji comes first. *)
Lemma sort_by_latitude_moves_a_tie :
  fst (@evaluate ShortArraySort.binary_insertion_runtime
         [Scenario.mori; Scenario.ueda; Scenario.hara; Scenario.fuji]
         SearchParams.empty Customer.k_lat asc)
  = [Scenario.ueda; Scenario.fuji; Scenario.mori; Scenario.hara]
  /\ @compare ShortArraySort.binary_insertion_runtime Customer.k_lat asc
       Scenario.hara Scenario.fuji = 0%Z.
Proof. split; reflexivity. Qed.

(** Sato, Kato and Abe are billed the same amount: sorted by that amount,
    Sato stays ahead of Abe. *)
Lemma sort_is_stable_where_values_are_ordered_witness :
  Spec.before Scenario.sato Scenario.abe
    (fst (@evaluate basic_runtime
            [Scenario.sato; Scenario.kato; Scenario.abe]
            SearchParams.empty Customer.k_billing_amount desc)).
Proof.
  destruct (@sort_is_stable_where_values_are_ordered basic_runtime
              [Scenario.sato; Scenario.kato; Scenario.abe]
              SearchParams.empty Customer.k_billing_amount desc)
    as (perm & _ & _ & _ & H).
  - intros c [<-|[<-|[<-|[]]]] _; reflexivity.
  - apply H; try reflexivity.
    exists [], [Scenario.kato], []. reflexivity.
Defined.

Example sort_by_latitude_descending :
  fst (@evaluate basic_runtime [Scenario.sato; Scenario.endo; Scenario.abe]
         SearchParams.empty Customer.k_lat desc)
  = [Scenario.abe; Scenario.sato; Scenario.endo].
Proof. reflexivity. Qed.

(** Full-width digits and dashes are normalised too. *)
Example formatPostalCode_full_width :
  formatPostalCode
    [65297; 65298; 65299; 65293; 65300; 65301; 65302; 65303]%Z
  = js "1234567".
Proof. reflexivity. Qed.

(** C2, at the collection [[B, A]] with no predicate, sorted by name in
    ascending order: the evaluation returns [[A, B]] and the collection
    itself has become [[A, B]]. *)
Example unfiltered_sort_reorders_the_collection :
  forall a b : Customer.t,
    @evaluate basic_runtime
      [Spec.named b (js "B") basic; Spec.named a (js "A") basic]
      SearchParams.empty Customer.k_name asc
    = ([Spec.named a (js "A") basic; Spec.named b (js "B") basic],
       [Spec.named a (js "A") basic; Spec.named b (js "B") basic]).
Proof. intros a b. reflexivity. Qed.

End CustomerListSpec.

(* ================================================================= *)
(** ** The map synchroniser *)

Module CustomerMapSpec.
Import CustomerMap Scenario.

(** *** Markers *)

Lemma newMarkers_customers displayed fresh active :
  map listener_customer (newMarkers displayed fresh active) =
  filter (fun c => not_null (Customer.lat c) && not_null (Customer.lng c))
    displayed.
Proof.
  unfold newMarkers.
  set (geocoded := filter _ displayed). clearbody geocoded.
  revert fresh. induction geocoded as [|c l IH]; intros fresh; simpl.
  - reflexivity.
  - rewrite IH. reflexivity.
Qed.

Lemma newMarkers_idents displayed fresh active :
  map ident (newMarkers displayed fresh active) =
  seq fresh (length (newMarkers displayed fresh active)).
Proof.
  unfold newMarkers.
  set (geocoded := filter _ displayed). clearbody geocoded.
  revert fresh. induction geocoded as [|c l IH]; intros fresh; simpl.
  - reflexivity.
  - rewrite IH. reflexivity.
Qed.

Lemma newMarkers_in displayed fresh active m :
  In m (newMarkers displayed fresh active) ->
  position m = location (listener_customer m)
  /\ title m = Customer.name (listener_customer m)
  /\ listener_activeInfoWindow m = active.
Proof.
  unfold newMarkers. intros H. apply in_map_iff in H as ([k c] & <- & _).
  simpl. auto.
Qed.

Lemma not_null_geocoded c :
  not_null (Customer.lat c) && not_null (Customer.lng c) = true
  <-> Spec.geocoded c.
Proof.
  unfold Spec.geocoded.
  destruct (Customer.lat c), (Customer.lng c); simpl; split;
    intros H; try reflexivity; try discriminate H;
    try (split; discriminate); destruct H as [H1 H2]; congruence.
Qed.

(** C7. Once the map is loaded, the markers that synchronisation creates
    stand for exactly the displayed records that have both coordinates, one
    marker (each a distinct object, placed at its record's coordinates) per
    such record and in the same order; a record that lacks a coordinate has
    no marker, whatever the records, the search string and the filters. *)
Theorem markers_only_for_geocoded_records :
  forall (rt : Runtime) customers searchQuery filters s,
    State.loaded s = true ->
    map listener_customer
      (State.markers
         (syncMarkers (filteredCustomers customers searchQuery filters) s))
    = filter (fun c => not_null (Customer.lat c) && not_null (Customer.lng c))
        (filteredCustomers customers searchQuery filters)
    /\ (forall c,
          In c (map listener_customer
                  (State.markers
                     (syncMarkers
                        (filteredCustomers customers searchQuery filters) s)))
          <-> In c (filteredCustomers customers searchQuery filters)
              /\ Spec.geocoded c)
    /\ NoDup (map ident
                (State.markers
                   (syncMarkers
                      (filteredCustomers customers searchQuery filters) s)))
    /\ (forall m,
          In m (State.markers
                  (syncMarkers
                     (filteredCustomers customers searchQuery filters) s)) ->
          position m = location (listener_customer m)
          /\ Spec.geocoded (listener_customer m)).
Proof.
  intros rt customers searchQuery filters s Hs.
  set (displayed := filteredCustomers customers searchQuery filters).
  unfold syncMarkers. rewrite Hs. simpl.
  split; [apply newMarkers_customers|]. split; [|split].
  - intros c. rewrite newMarkers_customers, filter_In, not_null_geocoded.
    reflexivity.
  - rewrite newMarkers_idents. apply seq_NoDup.
  - intros m Hm. split; [apply (newMarkers_in _ _ _ _ Hm)|].
    apply not_null_geocoded.
    assert (In (listener_customer m)
              (map listener_customer
                 (newMarkers displayed (State.fresh s)
                    (State.activeInfoWindow s)))) as H
      by (apply in_map, Hm).
    rewrite newMarkers_customers in H. apply filter_In in H. tauto.
Qed.

(** Of the records Sato (geocoded), Kato (not geocoded) and Abe
    (geocoded), all displayed, the first and the last get a marker. *)
Lemma markers_only_for_geocoded_records_witness :
  map listener_customer
    (State.markers
       (syncMarkers
          (@filteredCustomers basic_runtime [sato; kato; abe] [] no_filters)
          (mapLoaded State.initial)))
  = [sato; abe].
Proof.
  exact (proj1 (@markers_only_for_geocoded_records basic_runtime
                  [sato; kato; abe] [] no_filters (mapLoaded State.initial)
                  eq_refl)).
Defined.

(** Before the map is loaded, synchronisation creates nothing. *)
Lemma no_markers_without_map displayed s :
  State.loaded s = false -> syncMarkers displayed s = s.
Proof. intros H. unfold syncMarkers. rewrite H. reflexivity. Qed.

(** *** Popups *)

Lemma filter_none (A : Type) (f : A -> bool) (l : list A) :
  (forall x, In x l -> f x = false) -> filter f l = [].
Proof.
  induction l as [|x l IH]; simpl; intros H; [reflexivity|].
  rewrite (H x) by (left; reflexivity).
  apply IH. intros y Hy. apply H. right. exact Hy.
Qed.

Lemma rendered_reachable : reachable rendered.
Proof.
  eapply reachable_step; [|apply step_render].
  eapply reachable_step; [|apply step_load].
  apply reachable_initial.
Qed.

Lemma clicked_reachable : reachable clicked.
Proof.
  eapply reachable_step; [apply rendered_reachable|].
  apply step_click. left. reflexivity.
Qed.


(** *** Routes *)

Lemma String_eqb_eq a b : String_eqb a b = true <-> a = b.
Proof.
  revert b. induction a as [|x a IH]; intros [|y b]; simpl;
    try (split; [discriminate|discriminate]); [tauto|].
  rewrite andb_true_iff, Z.eqb_eq, IH. split.
  - intros [-> ->]. reflexivity.
  - intros E. injection E as -> ->. auto.
Qed.

Lemma NoDup_map_inj (A B : Type) (f : A -> B) (l : list A) x y :
  NoDup (map f l) -> In x l -> In y l -> f x = f y -> x = y.
Proof.
  induction l as [|z l IH]; simpl; intros Hnd Hx Hy E; [contradiction|].
  inversion Hnd as [|? ? Hz Hl]; subst.
  destruct Hx as [->|Hx], Hy as [->|Hy].
  - reflexivity.
  - exfalso. apply Hz. rewrite E. apply in_map, Hy.
  - exfalso. apply Hz. rewrite <- E. apply in_map, Hx.
  - apply IH; assumption.
Qed.

Lemma slice_middle (A : Type) (first last : A) (middle : list A) :
  Array_slice (first :: middle ++ [last]) 1 (-1) = middle.
Proof.
  unfold Array_slice.
  replace (length (first :: middle ++ [last])) with (length middle + 2)
    by (simpl; rewrite length_app; simpl; lia).
  replace (Z.ltb 1 0) with false by reflexivity.
  replace (Z.ltb (-1) 0) with true by reflexivity.
  rewrite Z.min_l by lia. rewrite Z.max_l by lia.
  replace (Z.to_nat 1) with 1 by reflexivity.
  replace (Z.to_nat (Z.of_nat (length middle + 2) + -1 - 1))
    with (length middle + 0) by lia.
  simpl skipn. rewrite firstn_app_2. simpl. apply app_nil_r.
Qed.

Lemma last_of_selection (A : Type) (first last : A) (middle : list A) :
  nth_error (first :: middle ++ [last])
    (length (first :: middle ++ [last]) - 1) = Some last.
Proof.
  replace (length (first :: middle ++ [last]) - 1) with (S (length middle))
    by (simpl; rewrite length_app; simpl; lia).
  change (nth_error (middle ++ [last]) (length middle) = Some last).
  rewrite nth_error_app2 by lia. rewrite Nat.sub_diag. reflexivity.
Qed.

(** The records the selection list lets the user select are geocoded,
    provided identifiers are unique among the displayed records. *)
Lemma selection_is_geocoded displayed selectedIds :
  NoDup (map Customer.id displayed) ->
  incl selectedIds (options displayed) ->
  Forall Spec.geocoded (onChange displayed selectedIds).
Proof.
  intros Hnd Hincl. apply Forall_forall. intros c Hc.
  unfold onChange in Hc. apply filter_In in Hc as [Hc Hsel].
  apply existsb_exists in Hsel as (i & Hi & E).
  apply String_eqb_eq in E. subst i.
  apply Hincl in Hi. unfold options in Hi.
  apply in_map_iff in Hi as (c' & E & Hc').
  apply filter_In in Hc' as [Hc' Hgeo].
  assert (c' = c) as -> by (eapply NoDup_map_inj; eassumption).
  apply not_null_geocoded, Hgeo.
Qed.

(** C8. The routing service is called only for a selection of at least
    two records, all of them geocoded (identifiers being unique among the
    displayed records, and the selection made in the selection list); for a
    selection of one record or none it is not called.  When it is called,
    it is called once, with the first selected record as origin, the last as
    destination and the ones in between as waypoints. *)
Theorem route_only_for_two_geocoded_records :
  forall displayed selectedIds (map directionsRenderer : bool),
    NoDup (List.map Customer.id displayed) ->
    incl selectedIds (options displayed) ->
    (length (onChange displayed selectedIds) < 2 ->
     calculateRoute map directionsRenderer (onChange displayed selectedIds)
     = [])
    /\ (calculateRoute map directionsRenderer (onChange displayed selectedIds)
        <> [] ->
        2 <= length (onChange displayed selectedIds)
        /\ Forall Spec.geocoded (onChange displayed selectedIds))
    /\ (forall first middle last,
          onChange displayed selectedIds = first :: middle ++ [last] ->
          map = true -> directionsRenderer = true ->
          calculateRoute map directionsRenderer
            (onChange displayed selectedIds)
          = [ {| origin := location first;
                 destination := location last;
                 waypoints :=
                   List.map (fun c => {| waypoint_location := location c;
                                         stopover := true |}) middle;
                 optimizeWaypoints := true |} ]).
Proof.
  intros displayed selectedIds map dr Hnd Hincl.
  pose proof (@selection_is_geocoded displayed selectedIds Hnd Hincl) as Hgeo.
  set (selected := onChange displayed selectedIds) in *. clearbody selected.
  split; [|split].
  - intros H. unfold calculateRoute.
    apply Nat.ltb_lt in H. rewrite H, !orb_true_r. reflexivity.
  - intros H. split; [|exact Hgeo].
    unfold calculateRoute in H.
    destruct (Nat.ltb (length selected) 2) eqn:E.
    + rewrite !orb_true_r in H. contradiction.
    + apply Nat.ltb_ge, E.
  - intros first middle last -> -> ->. unfold calculateRoute.
    replace (Nat.ltb (length (first :: middle ++ [last])) 2) with false.
    2:{ symmetry. apply Nat.ltb_ge. simpl. rewrite length_app. simpl. lia. }
    rewrite last_of_selection, slice_middle. reflexivity.
Qed.

Lemma scenario_ids_distinct :
  NoDup (List.map Customer.id [sato; kato; abe; endo]).
Proof.
  repeat constructor; simpl; intros H;
    repeat (destruct H as [H|H]; [discriminate H|]); exact H.
Qed.

(** Sato, Abe and Endo selected: one request, from Sato to Endo by way of
    Abe. *)
Lemma route_only_for_two_geocoded_records_witness :
  calculateRoute true true
    (onChange [sato; kato; abe; endo] [js "c1"; js "c3"; js "c4"])
  = [ {| origin := location sato;
         destination := location endo;
         waypoints :=
           [ {| waypoint_location := location abe; stopover := true |} ];
         optimizeWaypoints := true |} ].
Proof.
  exact (proj2 (proj2
           (@route_only_for_two_geocoded_records
              [sato; kato; abe; endo] [js "c1"; js "c3"; js "c4"] true true
              scenario_ids_distinct (fun i H => H)))
           sato [abe] endo eq_refl eq_refl eq_refl).
Defined.

(** The guard of [calculateRoute], for any selection whatever. *)
Lemma calculateRoute_guard map directionsRenderer selected :
  calculateRoute map directionsRenderer selected <> [] ->
  map = true /\ directionsRenderer = true /\ 2 <= length selected.
Proof.
  unfold calculateRoute.
  destruct map, directionsRenderer; simpl; try contradiction.
  destruct (Nat.ltb (length selected) 2) eqn:E; [contradiction|].
  intros _. apply Nat.ltb_ge in E. auto.
Qed.

End CustomerMapSpec.

(* ================================================================= *)
(** ** The form controller *)

Module CustomerFormSpec.
Import CustomerList CustomerForm Scenario.

(** The normalised postal code consists of ASCII digits only. *)
Lemma formatPostalCode_digits value :
  Forall (fun c => (48 <= c <= 57)%Z) (formatPostalCode value).
Proof.
  unfold formatPostalCode. apply Forall_forall. intros c Hc.
  apply filter_In in Hc as [Hc Hnot]. apply filter_In in Hc as [_ Hc].
  apply orb_true_iff in Hc as [Hc|Hc].
  - apply andb_true_iff in Hc as [H1 H2].
    apply Z.leb_le in H1. apply Z.leb_le in H2. lia.
  - rewrite Hc in Hnot. discriminate Hnot.
Qed.

(** The ways a geocoding request yields no coordinate pair. *)
Lemma geocodeAddress_fails geocoder address :
  geocoder = None
  \/ (exists g, geocoder = Some g
        /\ (g address = geocode_rejected
            \/ g address = geocode_resolved None
            \/ g address = geocode_resolved (Some [])
            \/ exists rest,
                 g address =
                 geocode_resolved (Some ({| geometry := None |} :: rest)))) ->
  fst (geocodeAddress geocoder address) = None.
Proof.
  unfold geocodeAddress.
  intros [->|(g & -> & [E|[E|[E|(rest & E)]]])]; [reflexivity| | | |];
    rewrite E; reflexivity.
Qed.

Lemma lookups_geocodeAddress geocoder address :
  lookups (snd (geocodeAddress geocoder address)) = 0.
Proof.
  unfold geocodeAddress. destruct geocoder as [g|]; [|reflexivity].
  destruct (g address) as [|[[|[[location|]] rest]|]]; reflexivity.
Qed.

(** C4, as stated, fails: the input [123-4567] normalises to the seven
    digits [1234567], and yet the handler, given the input as typed, sends
    no request to the postal-code service; and the input [abcdefg], which
    normalises to no digit at all, makes it send one. *)
Lemma hyphenated_postal_code_triggers_no_lookup :
  formatPostalCode (js "123-4567") = js "1234567"
  /\ length (formatPostalCode (js "123-4567")) = 7
  /\ lookups
       (snd (handlePostalCodeChange (Some answering_geocoder) answering_fetch
               (js "123-4567") PartialCustomer.empty)) = 0
  /\ length (formatPostalCode (js "abcdefg")) = 0
  /\ lookups
       (snd (handlePostalCodeChange (Some answering_geocoder) answering_fetch
               (js "abcdefg") PartialCustomer.empty)) = 1.
Proof. repeat split; reflexivity. Qed.

(** C4, amended.  [formatPostalCode] turns [123-4567] into [1234567], but
    the form controller does not normalise its input: the handler sends
    one request to the postal-code service when the input as typed has
    exactly seven code units, for that very input, and none otherwise; so
    the input [1234567] triggers one request. *)
Theorem lookup_exactly_for_seven_code_units :
  forall geocoder fetch code formData,
    lookups (snd (handlePostalCodeChange geocoder fetch code formData))
    = (if Nat.eqb (length code) 7 then 1 else 0)
    /\ (forall url,
          In (FetchUrl url)
            (snd (handlePostalCodeChange geocoder fetch code formData)) ->
          url = zipcloud ++ code)
    /\ formatPostalCode (js "123-4567") = js "1234567"
    /\ lookups
         (snd (handlePostalCodeChange geocoder fetch (js "1234567") formData))
       = 1.
Proof.
  assert (forall geocoder fetch code formData,
            lookups (snd (handlePostalCodeChange geocoder fetch code formData))
            = (if Nat.eqb (length code) 7 then 1 else 0)) as Hcount.
  { intros geocoder fetch code formData. unfold handlePostalCodeChange.
    destruct (Nat.eqb (length code) 7); [|reflexivity].
    destruct (fetch (zipcloud ++ code)) as [|[[|r rest]|]]; try reflexivity.
    pose proof (lookups_geocodeAddress geocoder
                  (address1 r ++ address2 r ++ address3 r)) as H.
    destruct (geocodeAddress geocoder
                (address1 r ++ address2 r ++ address3 r)) as [coordinates done].
    simpl in H |- *. unfold lookups in H |- *. simpl. rewrite H. reflexivity. }
  intros geocoder fetch code formData.
  split; [apply Hcount|]. split; [|split; [reflexivity|apply Hcount]].
  intros url. unfold handlePostalCodeChange.
  destruct (Nat.eqb (length code) 7); [|intros []].
  destruct (fetch (zipcloud ++ code)) as [|[[|r rest]|]]; simpl.
  - intros [E|[E|[]]]; [injection E as <-; reflexivity|discriminate E].
  - intros [E|[]]. injection E as <-. reflexivity.
  - unfold geocodeAddress.
    destruct geocoder as [g|]; simpl.
    + destruct (g (address1 r ++ address2 r ++ address3 r))
        as [|[[|[[location|]] more]|]]; simpl;
        intros H; repeat (destruct H as [H|H]; try discriminate H);
        try contradiction; injection H as <-; reflexivity.
    + intros [E|[]]. injection E as <-. reflexivity.
  - intros [E|[]]. injection E as <-. reflexivity.
Qed.

(** C6. When the geocoding request of a submission yields no coordinate
    pair, the draft is still handed over, once, and exactly as it was: its
    coordinates are the ones it had (none, if it had none) and no other
    field has changed. *)
Theorem failed_geocoding_submits_the_draft_as_it_was :
  forall geocoder formData,
    (forall address,
       if_present (PartialCustomer.address formData) = Some address ->
       fst (geocodeAddress geocoder address) = None) ->
    fst (handleSubmit geocoder formData) = formData
    /\ submissions (snd (handleSubmit geocoder formData)) = [formData]
    /\ PartialCustomer.lat (fst (handleSubmit geocoder formData))
       = PartialCustomer.lat formData
    /\ PartialCustomer.lng (fst (handleSubmit geocoder formData))
       = PartialCustomer.lng formData.
Proof.
  intros geocoder formData Hfail. unfold handleSubmit.
  destruct (if_present (PartialCustomer.address formData)) as [address|].
  - specialize (Hfail address eq_refl).
    destruct (geocodeAddress geocoder address) as [coordinates done] eqn:E.
    simpl in Hfail. subst coordinates. simpl.
    repeat split; try reflexivity.
    unfold geocodeAddress in E. destruct geocoder as [g|].
    + destruct (g address) as [|[[|[[location|]] rest]|]];
        try discriminate E; injection E as <-; reflexivity.
    + injection E as <-. reflexivity.
  - repeat split; reflexivity.
Qed.

(** A draft with the address Tokyo and no coordinates, and a geocoder that
    rejects every request. *)
Lemma failed_geocoding_submits_the_draft_as_it_was_witness :
  fst (handleSubmit (Some failing_geocoder) draft_without_coordinates)
  = draft_without_coordinates
  /\ submissions
       (snd (handleSubmit (Some failing_geocoder) draft_without_coordinates))
     = [draft_without_coordinates]
  /\ PartialCustomer.lat
       (fst (handleSubmit (Some failing_geocoder) draft_without_coordinates))
     = None
  /\ PartialCustomer.lng
       (fst (handleSubmit (Some failing_geocoder) draft_without_coordinates))
     = None.
Proof.
  exact (@failed_geocoding_submits_the_draft_as_it_was
           (Some failing_geocoder) draft_without_coordinates
           (fun address _ => eq_refl)).
Defined.

(** Submission is never held back: whatever the geocoder does, the draft
    the handler ends with is handed over exactly once. *)
Lemma submission_always_happens geocoder formData :
  submissions (snd (handleSubmit geocoder formData))
  = [fst (handleSubmit geocoder formData)].
Proof.
  unfold handleSubmit.
  destruct (if_present (PartialCustomer.address formData)) as [address|];
    [|reflexivity].
  unfold geocodeAddress. destruct geocoder as [g|]; [|reflexivity].
  destruct (g address) as [|[[|[[[la ln]|]] rest]|]]; reflexivity.
Qed.

End CustomerFormSpec.

(* ================================================================= *)
(** ** The record store *)

Module AppSpec.
Import App Scenario.

Lemma created_has_both_coordinates data ident created now :
  Customer.lat (newCustomer data ident created now) <> None
  /\ Customer.lng (newCustomer data ident created now) <> None.
Proof. split; discriminate. Qed.

Lemma updated_keeps_coordinates_paired selected data now :
  Spec.paired (Customer.lat selected) (Customer.lng selected) ->
  Spec.paired (PartialCustomer.lat data) (PartialCustomer.lng data) ->
  Spec.paired (Customer.lat (updated selected data now))
         (Customer.lng (updated selected data now)).
Proof.
  unfold Spec.paired. simpl.
  destruct (PartialCustomer.lat data), (PartialCustomer.lng data);
    intros H1 H2; try tauto;
    destruct H2 as [H2 H3];
    (discriminate (H2 eq_refl) || discriminate (H3 eq_refl)).
Qed.

(** Every record the store holds has its coordinates Spec.paired, as long as
    the drafts it is given have. *)
Lemma store_keeps_coordinates_paired data s w :
  Forall (fun c => Spec.paired (Customer.lat c) (Customer.lng c))
    (customers s) ->
  (forall c, selectedCustomer s = Some c ->
             Spec.paired (Customer.lat c) (Customer.lng c)) ->
  Spec.paired (PartialCustomer.lat data) (PartialCustomer.lng data) ->
  Forall (fun c => Spec.paired (Customer.lat c) (Customer.lng c))
    (customers (fst (handleSubmit data s w))).
Proof.
  intros Hall Hsel Hdata. unfold handleSubmit.
  destruct (selectedCustomer s) as [selected|]; simpl.
  - apply Forall_forall. intros c Hc. apply in_map_iff in Hc as (c0 & <- & Hc0).
    destruct (String_eqb (Customer.id c0) (Customer.id selected)).
    + apply updated_keeps_coordinates_paired;
        [apply Hsel; reflexivity|exact Hdata].
    + rewrite Forall_forall in Hall. apply Hall, Hc0.
  - apply Forall_app. split; [exact Hall|]. constructor; [|constructor].
    unfold Spec.paired. simpl. split; discriminate.
Qed.

(** An edit that changes nothing but is submitted leaves the record as it
    was, its coordinates included, up to the time of the update. *)
Lemma updated_of_customer c now :
  updated c (PartialCustomer.of_customer c) now =
  Customer.mk (Customer.id c) (Customer.name c) (Customer.postal_code c)
    (Customer.address c) (Customer.phone c) (Customer.email c)
    (Customer.contract_type c) (Customer.snow_removal_area c)
    (Customer.contract_start_date c) (Customer.contract_end_date c)
    (Customer.billing_amount c) (Customer.lat c) (Customer.lng c)
    (Customer.created_at c) now.
Proof.
  unfold updated. simpl.
  destruct (Customer.lat c), (Customer.lng c); reflexivity.
Qed.

(** C5, at a draft that was never geocoded: the record created from it has
    the coordinates (0, 0). *)
Example never_geocoded_record_has_coordinates :
  forall w,
    map (fun c => (Customer.lat c, Customer.lng c))
      (customers (fst (handleSubmit draft_without_coordinates empty_store w)))
    = [(Some (Num 0), Some (Num 0))].
Proof. intros w. reflexivity. Qed.

(** C10, as stated, fails where it says that the two time stamps are
    equal: with a clock that advances between its two readings, the record
    created has different ones. *)
Lemma time_stamps_of_a_new_record_may_differ :
  map (fun c => (Customer.created_at c, Customer.updated_at c))
    (customers (fst (handleSubmit PartialCustomer.empty empty_store
                       ticking_world)))
  = [(js "2025-01-24T11:39:42.000Z", js "2025-01-24T11:39:42.001Z")]
  /\ String_eqb (js "2025-01-24T11:39:42.000Z")
       (js "2025-01-24T11:39:42.001Z") = false.
Proof. split; reflexivity. Qed.

(** C10, amended.  Creating a record from a draft always succeeds: one
    record is appended to the store, whatever the draft.  Every field the
    draft lacks gets its default: the empty string for name, postal code,
    address, phone, email and the contract dates, the tier [basic], and 0 for
    the snow-removal area, the billing amount, the latitude and the
    longitude.  The two time stamps are two successive readings of the clock:
    they are equal when the clock shows the same time at both. *)
Theorem creation_fills_defaults :
  forall data s w,
    selectedCustomer s = None ->
    exists c,
      customers (fst (handleSubmit data s w)) = customers s ++ [c]
      /\ (PartialCustomer.name data = None -> Customer.name c = [])
      /\ (PartialCustomer.postal_code data = None ->
          Customer.postal_code c = [])
      /\ (PartialCustomer.address data = None -> Customer.address c = [])
      /\ (PartialCustomer.phone data = None -> Customer.phone c = [])
      /\ (PartialCustomer.email data = None -> Customer.email c = [])
      /\ (PartialCustomer.contract_start_date data = None ->
          Customer.contract_start_date c = [])
      /\ (PartialCustomer.contract_end_date data = None ->
          Customer.contract_end_date c = [])
      /\ (PartialCustomer.contract_type data = None ->
          Customer.contract_type c = basic)
      /\ (PartialCustomer.snow_removal_area data = None ->
          Customer.snow_removal_area c = Num 0)
      /\ (PartialCustomer.billing_amount data = None ->
          Customer.billing_amount c = Num 0)
      /\ (PartialCustomer.lat data = None -> Customer.lat c = Some (Num 0))
      /\ (PartialCustomer.lng data = None -> Customer.lng c = Some (Num 0))
      /\ Customer.created_at c = clock w (reads w)
      /\ Customer.updated_at c = clock w (S (reads w))
      /\ (clock w (reads w) = clock w (S (reads w)) ->
          Customer.created_at c = Customer.updated_at c).
Proof.
  intros data s w Hnew. unfold handleSubmit. rewrite Hnew. simpl.
  eexists. split; [reflexivity|]. simpl.
  repeat split; try (intros ->; reflexivity).
Qed.

(** The empty draft, submitted to the empty store. *)
Lemma creation_fills_defaults_witness :
  exists c,
    customers (fst (handleSubmit PartialCustomer.empty empty_store
                      ticking_world)) = [c]
    /\ Customer.name c = []
    /\ Customer.contract_type c = basic
    /\ Customer.billing_amount c = Num 0
    /\ Customer.lat c = Some (Num 0).
Proof.
  destruct (@creation_fills_defaults PartialCustomer.empty empty_store
              ticking_world eq_refl)
    as (c & H & Hname & _ & _ & _ & _ & _ & _ & Htier & _ & Hbill & Hlat & _).
  exists c. split; [exact H|]. split; [exact (Hname eq_refl)|].
  split; [exact (Htier eq_refl)|]. split; [exact (Hbill eq_refl)|].
  exact (Hlat eq_refl).
Defined.

End AppSpec.

(* ================================================================= *)
(** ** More on the list: normalisation, order, re-evaluation, headers *)

Module CustomerListMore.
Import CustomerList CustomerListSpec Scenario.

Definition digit (c : Z) : Prop := (48 <= c <= 57)%Z.

Lemma filter_all (A : Type) (f : A -> bool) (l : list A) :
  (forall x, In x l -> f x = true) -> filter f l = l.
Proof.
  induction l as [|x l IH]; simpl; intros H; [reflexivity|].
  rewrite (H x) by (left; reflexivity). f_equal.
  apply IH. intros y Hy. apply H. right. exact Hy.
Qed.

Lemma map_fixed (A : Type) (f : A -> A) (l : list A) :
  (forall x, In x l -> f x = x) -> map f l = l.
Proof.
  induction l as [|x l IH]; simpl; intros H; [reflexivity|].
  rewrite (H x) by (left; reflexivity). f_equal.
  apply IH. intros y Hy. apply H. right. exact Hy.
Qed.

Lemma toHalfWidth_of_digits l : Forall digit l -> toHalfWidth l = l.
Proof.
  unfold toHalfWidth. induction 1 as [|c l Hc Hl IH]; simpl; [reflexivity|].
  simpl in IH. rewrite IH. unfold digit in Hc.
  destruct (Z.leb 65296 c) eqn:E; [apply Z.leb_le in E; lia|]. simpl.
  repeat match goal with
  | |- context [Z.eqb c ?k] =>
      destruct (Z.eqb c k) eqn:?;
      [match goal with E : Z.eqb _ _ = true |- _ =>
         apply Z.eqb_eq in E; lia end|]
  end.
  reflexivity.
Qed.

Lemma formatPostalCode_of_digits l :
  Forall digit l -> formatPostalCode l = l.
Proof.
  intros H. unfold formatPostalCode. rewrite (toHalfWidth_of_digits H).
  rewrite Forall_forall in H.
  assert (filter (fun c => (Z.leb 48 c && Z.leb c 57) || Z.eqb c 45) l = l)
    as ->.
  { apply filter_all. intros c Hc. apply H in Hc. unfold digit in Hc.
    apply orb_true_iff. left. apply andb_true_iff.
    split; apply Z.leb_le; lia. }
  apply filter_all. intros c Hc. apply H in Hc. unfold digit in Hc.
  apply negb_true_iff, Z.eqb_neq. lia.
Qed.

Lemma toHalfWidth_idempotent str :
  toHalfWidth (toHalfWidth str) = toHalfWidth str.
Proof.
  unfold toHalfWidth. rewrite !map_map. apply map_ext. intros c. simpl.
  destruct (Z.leb 65296 c && Z.leb c 65305) eqn:E.
  - apply andb_true_iff in E as [E1 E2].
    apply Z.leb_le in E1. apply Z.leb_le in E2.
    assert (48 <= (c - 65248) mod 65536 <= 57)%Z as Hd
      by (rewrite Z.mod_small; lia).
    set (d := ((c - 65248) mod 65536)%Z) in *. clearbody d.
    repeat match goal with
    | |- context [Z.eqb d ?k] =>
        destruct (Z.eqb d k) eqn:?;
        [match goal with E : Z.eqb _ _ = true |- _ =>
           apply Z.eqb_eq in E; lia end|]
    end.
    simpl.
    destruct (Z.leb 65296 d) eqn:E3; [apply Z.leb_le in E3; lia|]. simpl.
    repeat match goal with
    | |- context [Z.eqb d ?k] =>
        destruct (Z.eqb d k) eqn:?;
        [match goal with E : Z.eqb _ _ = true |- _ =>
           apply Z.eqb_eq in E; lia end|]
    end.
    reflexivity.
  - destruct (Z.eqb c 8208 || (Z.eqb c 65293 || (Z.eqb c 8213
              || (Z.eqb c 12540 || false)))) eqn:E4.
    + reflexivity.
    + rewrite E. rewrite E4. reflexivity.
Qed.

(** X1. The normalised postal code consists of ASCII digits only and is
    no longer than the input; normalising it again, or converting the input
    to half width first, changes nothing. *)
Theorem formatPostalCode_normal_form :
  forall value,
    Forall digit (formatPostalCode value)
    /\ length (formatPostalCode value) <= length value
    /\ formatPostalCode (formatPostalCode value) = formatPostalCode value
    /\ formatPostalCode (toHalfWidth value) = formatPostalCode value.
Proof.
  intros value.
  assert (Forall digit (formatPostalCode value)) as Hd.
  { unfold formatPostalCode. apply Forall_forall. intros c Hc.
    apply filter_In in Hc as [Hc Hnot]. apply filter_In in Hc as [_ Hc].
    apply orb_true_iff in Hc as [Hc|Hc].
    - apply andb_true_iff in Hc as [H1 H2].
      apply Z.leb_le in H1. apply Z.leb_le in H2. unfold digit. lia.
    - rewrite Hc in Hnot. discriminate Hnot. }
  split; [exact Hd|]. split; [|split].
  - unfold formatPostalCode, toHalfWidth.
    eapply Nat.le_trans; [apply filter_length_le|].
    eapply Nat.le_trans; [apply filter_length_le|].
    rewrite !length_map. apply Nat.le_refl.
  - apply formatPostalCode_of_digits, Hd.
  - unfold formatPostalCode. rewrite toHalfWidth_idempotent. reflexivity.
Qed.

Lemma StronglySorted_before (A : Type) (R : A -> A -> Prop) (l : list A) a b :
  StronglySorted R l -> Spec.before a b l -> R a b.
Proof.
  induction 1 as [|x l Hl IH Hx]; intros H.
  - destruct (before_nil H).
  - apply before_cons_inv in H as [[-> Hb]|H].
    + rewrite Forall_forall in Hx. apply Hx, Hb.
    + apply IH, H.
Qed.

Lemma sorted_by_fixed (A : Type) (cmp : A -> A -> Z) (l : list A) :
  StronglySorted (fun u v => (cmp u v <= 0)%Z) l -> sorted_by cmp l = l.
Proof.
  induction 1 as [|x l Hl IH Hx]; simpl; [reflexivity|].
  rewrite IH. destruct l as [|y l']; [reflexivity|]. simpl.
  inversion Hx as [|? ? Hxy _]; subst.
  destruct (Z.ltb 0 (cmp x y)) eqn:E; [apply Z.ltb_lt in E; lia|reflexivity].
Qed.

Lemma key_eqb_eq a b : Customer.key_eqb a b = true <-> a = b.
Proof. destruct a, b; simpl; split; intros H; congruence. Qed.

Section Engine.
Context {rt : Runtime}.

(** X2. Sorted by a key with string values (the columns name, postal code
    and address among them), the list is in the order of that key: of two
    records, the one listed later does not hold the smaller string when the
    direction is ascending, nor the greater one when it is descending. *)
Theorem list_is_ordered_by_the_sort_key :
  forall cs sp field dir a b,
    Spec.string_key field = true ->
    Spec.before a b (fst (evaluate cs sp field dir)) ->
    match dir with
    | asc => String_ltb (Spec.key_string field b) (Spec.key_string field a)
    | desc => String_ltb (Spec.key_string field a) (Spec.key_string field b)
    end = false.
Proof.
  intros cs sp field dir a b Hkey H.
  apply (@compare_le_string_key rt field dir a b Hkey).
  exact (StronglySorted_before
           (@result_sorted_by_string_key rt cs sp field dir Hkey) H).
Qed.

(** X3. Evaluating the engine on its own result, with the same predicates
    and the same sort, keeps the same records; for a key with string values
    it returns the very same list. *)
Theorem reevaluation_changes_nothing :
  forall cs sp field dir,
    Permutation
      (fst (evaluate (fst (evaluate cs sp field dir)) sp field dir))
      (fst (evaluate cs sp field dir))
    /\ (Spec.string_key field = true ->
        fst (evaluate (fst (evaluate cs sp field dir)) sp field dir)
        = fst (evaluate cs sp field dir)).
Proof.
  intros cs sp field dir.
  assert (filter (Spec.satisfies sp) (fst (evaluate cs sp field dir))
          = fst (evaluate cs sp field dir)) as Hf.
  { apply filter_all. intros c Hc. rewrite evaluate_eq in Hc. simpl in Hc.
    apply sort_in, filter_In in Hc. tauto. }
  split.
  - rewrite (evaluate_eq (fst (evaluate cs sp field dir))). simpl fst.
    rewrite Hf. apply sort_permutation.
  - intros Hkey.
    rewrite (@evaluate_string_key rt (fst (evaluate cs sp field dir)) sp
               field dir Hkey).
    rewrite Hf. apply sorted_by_fixed.
    apply result_sorted_by_string_key, Hkey.
Qed.

(** X4. A click on a column header makes that column the sort key, in
    ascending order unless it was the sort key already, in which case the
    direction flips; so a third click on the same header undoes the second.
    Whatever header is clicked, the list shows the same records as
    before. *)
Theorem handleSort_keeps_the_records :
  forall cs sp field s,
    sortField (handleSort field s) = field
    /\ (field <> sortField s -> sortDirection (handleSort field s) = asc)
    /\ (field = sortField s ->
        sortDirection (handleSort field s) <> sortDirection s)
    /\ handleSort field (handleSort field (handleSort field s))
       = handleSort field s
    /\ Permutation
         (fst (evaluate cs sp (sortField (handleSort field s))
                 (sortDirection (handleSort field s))))
         (fst (evaluate cs sp (sortField s) (sortDirection s))).
Proof.
  intros cs sp field s.
  assert (forall f t, Customer.key_eqb f (sortField (handleSort f t)) = true)
    as Hsame.
  { intros f t. unfold handleSort.
    destruct (Customer.key_eqb f (sortField t)) eqn:E; simpl.
    - exact E.
    - apply key_eqb_eq. reflexivity. }
  split; [|split; [|split; [|split]]].
  - unfold handleSort. destruct (Customer.key_eqb field (sortField s)) eqn:E.
    + apply key_eqb_eq in E. symmetry. exact E.
    + reflexivity.
  - intros Hne. unfold handleSort.
    destruct (Customer.key_eqb field (sortField s)) eqn:E; [|reflexivity].
    apply key_eqb_eq in E. contradiction.
  - intros ->. unfold handleSort.
    replace (Customer.key_eqb (sortField s) (sortField s)) with true
      by (symmetry; apply key_eqb_eq; reflexivity).
    simpl. destruct (sortDirection s); discriminate.
  - assert (forall t, sortField t = field ->
                      handleSort field t
                      = {| sortField := field;
                           sortDirection :=
                             match sortDirection t with
                             | asc => desc
                             | desc => asc
                             end |}) as Hflip.
    { intros [f d] Hf. simpl in Hf. subst f. unfold handleSort. simpl.
      replace (Customer.key_eqb field field) with true
        by (symmetry; apply key_eqb_eq; reflexivity).
      reflexivity. }
    assert (sortField (handleSort field s) = field) as Hfield
      by (apply key_eqb_eq; symmetry; rewrite <- (Hsame field s);
          destruct (handleSort field s) as [f d]; simpl;
          destruct field, f; reflexivity).
    rewrite (Hflip (handleSort field s) Hfield).
    rewrite Hflip by reflexivity. simpl.
    destruct (handleSort field s) as [f d]. simpl in *. subst f.
    destruct d; reflexivity.
  - rewrite !evaluate_eq. simpl fst.
    rewrite sort_permutation. symmetry. apply sort_permutation.
Qed.

(** X5. What an evaluation leaves in the collection it was given: the
    collection as it was when some predicate is supplied, and otherwise the
    very list it returns, the collection being sorted where it stands. *)
Theorem collection_after_evaluation :
  forall cs sp field dir,
    snd (evaluate cs sp field dir)
    = if Spec.unconstrained sp
      then fst (evaluate cs sp field dir)
      else cs.
Proof.
  intros cs sp field dir.
  destruct (Spec.unconstrained sp) eqn:E.
  - apply unfiltered_view_sorts_input, E.
  - apply filtered_view_leaves_input, E.
Qed.
End Engine.

(** Abe is listed before Kato when the list is sorted by name. *)
Lemma list_is_ordered_by_the_sort_key_witness :
  String_ltb (Spec.key_string Customer.k_name kato)
    (Spec.key_string Customer.k_name abe) = false.
Proof.
  exact (@list_is_ordered_by_the_sort_key basic_runtime [sato; kato; abe]
           SearchParams.empty Customer.k_name asc abe kato eq_refl
           (ex_intro _ [] (ex_intro _ [] (ex_intro _ [sato] eq_refl)))).
Defined.

End CustomerListMore.

(* ================================================================= *)
(** ** More on the map: the display filter, the selection, the markers *)

Module CustomerMapMore.
Import CustomerMap CustomerMapSpec Scenario.

Lemma Number_leb_NaN_r n : Number_leb n NaN = false.
Proof. destruct n; reflexivity. Qed.

Lemma filter_twice (A : Type) (f : A -> bool) (l : list A) :
  filter f (filter f l) = filter f l.
Proof.
  apply CustomerListMore.filter_all. intros x Hx.
  apply filter_In in Hx. tauto.
Qed.

Section Display.
Context {rt : Runtime}.

(** X6. With an empty search string and no filter set, every record is
    displayed.  Whatever the search string and the filters, the display is
    a selection of the records, in their order, and filtering it again with
    the same settings changes nothing. *)
Theorem display_filter_selects :
  forall customers searchQuery filters,
    filteredCustomers customers []
      {| contractType := []; minSnowArea := []; maxSnowArea := [];
         minBilling := []; maxBilling := [] |}
    = customers
    /\ incl (filteredCustomers customers searchQuery filters) customers
    /\ (forall a b,
          Spec.before a b (filteredCustomers customers searchQuery filters) ->
          Spec.before a b customers)
    /\ filteredCustomers (filteredCustomers customers searchQuery filters)
         searchQuery filters
       = filteredCustomers customers searchQuery filters.
Proof.
  intros customers searchQuery filters. split; [|split; [|split]].
  - unfold filteredCustomers. simpl. apply CustomerListMore.filter_all.
    reflexivity.
  - intros c Hc. unfold filteredCustomers in Hc. apply filter_In in Hc. tauto.
  - intros a b. unfold filteredCustomers. apply before_filter.
  - unfold filteredCustomers. apply filter_twice.
Qed.

(** X7. A bound that is set to a text which is not a number hides every
    record: the comparison with [NaN] fails for each of them. *)
Theorem unreadable_bound_hides_everything :
  forall customers searchQuery filters bound,
    In bound [minSnowArea filters; maxSnowArea filters;
              minBilling filters; maxBilling filters] ->
    is_empty bound = false ->
    Number bound = NaN ->
    filteredCustomers customers searchQuery filters = [].
Proof.
  intros customers searchQuery filters bound Hin Hset Hnan.
  unfold filteredCustomers. apply filter_none. intros c _.
  unfold Number_geb.
  destruct Hin as [<-|[<-|[<-|[<-|[]]]]]; rewrite Hset, Hnan; simpl;
    rewrite ?Number_leb_NaN_r; simpl;
    rewrite ?andb_false_r; simpl; rewrite ?andb_false_r; reflexivity.
Qed.

(** X8. A range whose lower bound exceeds its upper bound hides every
    record, for the snow-removal area as for the billing amount. *)
Theorem crossed_bounds_hide_everything :
  forall customers searchQuery filters lo hi,
    (hi < lo)%Z ->
    (is_empty (minSnowArea filters) = false
     /\ is_empty (maxSnowArea filters) = false
     /\ Number (minSnowArea filters) = Num lo
     /\ Number (maxSnowArea filters) = Num hi)
    \/ (is_empty (minBilling filters) = false
        /\ is_empty (maxBilling filters) = false
        /\ Number (minBilling filters) = Num lo
        /\ Number (maxBilling filters) = Num hi) ->
    filteredCustomers customers searchQuery filters = [].
Proof.
  intros customers searchQuery filters lo hi Hlt H.
  unfold filteredCustomers. apply filter_none. intros c _.
  unfold Number_geb.
  destruct H as [(E1 & E2 & E3 & E4)|(E1 & E2 & E3 & E4)];
    rewrite E1, E2, E3, E4; rewrite !orb_false_l.
  - assert (Number_leb (Num lo) (Customer.snow_removal_area c)
            && Number_leb (Customer.snow_removal_area c) (Num hi) = false)
      as ->.
    { destruct (Customer.snow_removal_area c) as [|z]; [reflexivity|]. simpl.
      destruct (Z.leb lo z) eqn:A; [|reflexivity].
      destruct (Z.leb z hi) eqn:B; [|reflexivity].
      apply Z.leb_le in A. apply Z.leb_le in B. lia. }
    rewrite andb_false_r. reflexivity.
  - assert (Number_leb (Num lo) (Customer.billing_amount c)
            && Number_leb (Customer.billing_amount c) (Num hi) = false)
      as ->.
    { destruct (Customer.billing_amount c) as [|z]; [reflexivity|]. simpl.
      destruct (Z.leb lo z) eqn:A; [|reflexivity].
      destruct (Z.leb z hi) eqn:B; [|reflexivity].
      apply Z.leb_le in A. apply Z.leb_le in B. lia. }
    apply andb_false_r.
Qed.
End Display.

(** A lower bound of the area that reads [abc]. *)
Lemma unreadable_bound_hides_everything_witness :
  @filteredCustomers basic_runtime [sato; kato; abe] []
    {| contractType := []; minSnowArea := js "abc"; maxSnowArea := [];
       minBilling := []; maxBilling := [] |}
  = [].
Proof.
  exact (@unreadable_bound_hides_everything basic_runtime [sato; kato; abe] []
           {| contractType := []; minSnowArea := js "abc"; maxSnowArea := [];
              minBilling := []; maxBilling := [] |}
           (js "abc") (or_introl eq_refl) eq_refl eq_refl).
Defined.

(** A billing amount from 200 to 100. *)
Lemma crossed_bounds_hide_everything_witness :
  @filteredCustomers basic_runtime [sato; kato; abe] []
    {| contractType := []; minSnowArea := []; maxSnowArea := [];
       minBilling := js "200"; maxBilling := js "100" |}
  = [].
Proof.
  exact (@crossed_bounds_hide_everything basic_runtime [sato; kato; abe] []
           {| contractType := []; minSnowArea := []; maxSnowArea := [];
              minBilling := js "200"; maxBilling := js "100" |}
           200%Z 100%Z eq_refl
           (or_intror (conj eq_refl (conj eq_refl (conj eq_refl eq_refl))))).
Defined.

(** *** The selection *)

(** X9. The selection is made of the displayed records whose identifier
    is among the selected ones, in the order of the display: it does not
    depend on the order in which the identifiers are handed over, nor on
    how often one occurs. *)
Theorem selection_follows_the_display :
  forall displayed selectedIds selectedIds',
    (forall i, In i selectedIds <-> In i selectedIds') ->
    onChange displayed selectedIds = onChange displayed selectedIds'
    /\ (forall c,
          In c (onChange displayed selectedIds)
          <-> In c displayed /\ In (Customer.id c) selectedIds)
    /\ (forall a b,
          Spec.before a b (onChange displayed selectedIds) ->
          Spec.before a b displayed).
Proof.
  intros displayed ids ids' Hsame.
  assert (forall l c,
            existsb (fun i => String_eqb i (Customer.id c)) l = true
            <-> In (Customer.id c) l) as Hmem.
  { intros l c. rewrite existsb_exists. split.
    - intros (i & Hi & E). apply String_eqb_eq in E. subst i. exact Hi.
    - intros Hi. exists (Customer.id c). split; [exact Hi|].
      apply String_eqb_eq. reflexivity. }
  split; [|split].
  - unfold onChange. apply filter_ext. intros c.
    destruct (existsb (fun i => String_eqb i (Customer.id c)) ids) eqn:E.
    + symmetry. apply Hmem, Hsame, Hmem, E.
    + destruct (existsb (fun i => String_eqb i (Customer.id c)) ids') eqn:E';
        [|reflexivity].
      apply Hmem, Hsame, Hmem in E'. congruence.
  - intros c. unfold onChange. rewrite filter_In, Hmem. reflexivity.
  - intros a b. unfold onChange. apply before_filter.
Qed.

(** Abe and Sato, selected in this order or the other. *)
Lemma selection_follows_the_display_witness :
  onChange [sato; kato; abe] [js "c3"; js "c1"]
  = onChange [sato; kato; abe] [js "c1"; js "c3"; js "c1"].
Proof.
  refine (proj1 (@selection_follows_the_display [sato; kato; abe]
                   [js "c3"; js "c1"] [js "c1"; js "c3"; js "c1"] _)).
  intros i. simpl. tauto.
Defined.

(** *** The markers on the map *)

Definition marker_ok (fresh : nat) (m : Marker) : Prop :=
  ident m < fresh
  /\ Spec.geocoded (listener_customer m)
  /\ position m = location (listener_customer m)
  /\ title m = Customer.name (listener_customer m).

Definition markers_ok (s : State.t) : Prop :=
  State.shown s = State.markers s
  /\ NoDup (map ident (State.shown s))
  /\ (forall m, In m (State.shown s) -> marker_ok (State.fresh s) m)
  /\ Forall Spec.geocoded (State.notified s).

Lemma newMarkers_ok displayed fresh active m :
  In m (newMarkers displayed fresh active) ->
  marker_ok (fresh + length (newMarkers displayed fresh active)) m.
Proof.
  intros Hm. unfold marker_ok.
  destruct (newMarkers_in _ _ _ _ Hm) as (Hpos & Htitle & _).
  split; [|split; [|split]]; try assumption.
  - assert (In (ident m) (map ident (newMarkers displayed fresh active))) as H
      by (apply in_map, Hm).
    rewrite newMarkers_idents in H. apply in_seq in H. lia.
  - apply not_null_geocoded.
    assert (In (listener_customer m)
              (map listener_customer (newMarkers displayed fresh active))) as H
      by (apply in_map, Hm).
    rewrite newMarkers_customers in H. apply filter_In in H. tauto.
Qed.

Lemma markers_ok_step s s' :
  markers_ok s -> step s s' -> markers_ok s'.
Proof.
  intros (Heq & Hnd & Hok & Hnot) Hstep.
  destruct Hstep as [s|s displayed|s m Hin|s w].
  - split; [exact Heq|]. split; [exact Hnd|]. split; [exact Hok|exact Hnot].
  - unfold syncMarkers. destruct (State.loaded s); simpl.
    2:{ split; [exact Heq|]. split; [exact Hnd|].
        split; [exact Hok|exact Hnot]. }
    rewrite filter_none.
    2:{ intros m Hin. apply negb_false_iff, existsb_exists.
        exists (ident m). split; [|apply Nat.eqb_refl].
        rewrite <- Heq. apply in_map, Hin. }
    unfold markers_ok. simpl. split; [reflexivity|]. split; [|split].
    + rewrite newMarkers_idents. apply seq_NoDup.
    + intros m Hin. apply newMarkers_ok, Hin.
    + exact Hnot.
  - unfold click, markers_ok. simpl.
    split; [exact Heq|]. split; [exact Hnd|]. split; [exact Hok|].
    apply Forall_app. split; [exact Hnot|]. constructor; [|constructor].
    apply (Hok m Hin).
  - split; [exact Heq|]. split; [exact Hnd|]. split; [exact Hok|exact Hnot].
Qed.

Lemma reachable_markers_ok s : reachable s -> markers_ok s.
Proof.
  induction 1 as [|s s' Hs IH Hstep].
  - split; [reflexivity|]. split; [constructor|].
    split; [intros m []|constructor].
  - exact (markers_ok_step IH Hstep).
Qed.

(** X10. In every state the map synchroniser can reach, the markers on the
    map are exactly the markers the component holds, they are distinct
    objects, each stands for a geocoded record, at that record's
    coordinates and under its name, and every record reported to the
    selection callback is geocoded. *)
Theorem markers_on_the_map_are_sound :
  forall s,
    reachable s ->
    State.shown s = State.markers s
    /\ NoDup (map ident (State.shown s))
    /\ (forall m,
          In m (State.shown s) ->
          Spec.geocoded (listener_customer m)
          /\ position m = location (listener_customer m)
          /\ title m = Customer.name (listener_customer m))
    /\ Forall Spec.geocoded (State.notified s).
Proof.
  intros s Hs. destruct (reachable_markers_ok Hs) as (Heq & Hnd & Hok & Hnot).
  split; [exact Heq|]. split; [exact Hnd|]. split; [|exact Hnot].
  intros m Hm. destruct (Hok m Hm) as (_ & H). exact H.
Qed.

(** After the click on the marker of Sato, Sato has been reported. *)
Lemma markers_on_the_map_are_sound_witness :
  Forall Spec.geocoded [sato].
Proof.
  exact (proj2 (proj2 (proj2
           (@markers_on_the_map_are_sound clicked clicked_reachable)))).
Defined.

(** *** A click and the render it causes *)

Lemma shown_needs_map s : reachable s -> State.loaded s = false ->
  State.shown s = [].
Proof.
  induction 1 as [|s s' Hs IH Hstep]; intros Hl; [reflexivity|].
  destruct Hstep as [s|s displayed|s m Hin|s w]; simpl in *.
  - discriminate Hl.
  - unfold syncMarkers in *. destruct (State.loaded s) eqn:E; simpl in *.
    + discriminate Hl.
    + apply IH. reflexivity.
  - apply IH, Hl.
  - apply IH, Hl.
Qed.

Lemma close_in w v opened : In v (close w opened) <-> In v opened /\ v <> w.
Proof.
  unfold close. rewrite filter_In, negb_true_iff, Nat.eqb_neq. reflexivity.
Qed.

Lemma open_in w v opened : In v (open w opened) <-> v = w \/ In v opened.
Proof.
  unfold open. destruct (existsb (Nat.eqb w) opened) eqn:E; simpl.
  - apply existsb_exists in E as (u & Hu & E). apply Nat.eqb_eq in E.
    subst u. split; [tauto|]. intros [->|H]; assumption.
  - split; intros [H|H]; auto.
Qed.

Lemma close_absent w opened : ~ In w opened -> close w opened = opened.
Proof.
  intros H. unfold close. apply CustomerListMore.filter_all.
  intros v Hv. apply negb_true_iff, Nat.eqb_neq. intros ->. exact (H Hv).
Qed.

Lemma close_open w opened : close w (open w opened) = close w opened.
Proof.
  unfold open. destruct (existsb (Nat.eqb w) opened); [reflexivity|].
  unfold close. simpl. rewrite Nat.eqb_refl. reflexivity.
Qed.

(** What the listeners on the map have captured is out of date: the
    [activeInfoWindow] a listener holds is a popup that the effect closed
    when it created the listener, and that belongs to a marker which is no
    longer on the map. *)
Definition listeners_stale (s : State.t) : Prop :=
  (forall w, State.activeInfoWindow s = Some w -> w < State.fresh s)
  /\ (forall m w,
        In m (State.shown s) ->
        listener_activeInfoWindow m = Some w ->
        ~ In w (State.opened s)
        /\ (forall m', In m' (State.shown s) -> ident m' <> w)).

Lemma listeners_stale_step s s' :
  markers_ok s -> listeners_stale s -> step s s' -> listeners_stale s'.
Proof.
  intros (Heq & Hnd & Hok & Hnot) (Hact & Hcap) Hstep.
  destruct Hstep as [s|s displayed|s m Hin|s w].
  - split; [exact Hact|exact Hcap].
  - unfold syncMarkers. destruct (State.loaded s); simpl.
    2:{ split; [exact Hact|exact Hcap]. }
    rewrite filter_none.
    2:{ intros m Hin. apply negb_false_iff, existsb_exists.
        exists (ident m). split; [|apply Nat.eqb_refl].
        rewrite <- Heq. apply in_map, Hin. }
    split; simpl.
    + intros w Hw. specialize (Hact w Hw). lia.
    + intros m w Hm Hw.
      destruct (newMarkers_in _ _ _ _ Hm) as (_ & _ & Hc).
      rewrite Hc in Hw. split.
      * rewrite Hw. simpl. rewrite close_in. tauto.
      * intros m' Hm'.
        assert (In (ident m')
                  (map ident
                     (newMarkers displayed (State.fresh s)
                        (State.activeInfoWindow s)))) as Hid
          by (apply in_map, Hm').
        rewrite newMarkers_idents in Hid. apply in_seq in Hid.
        specialize (Hact w Hw). lia.
  - unfold click. split; simpl.
    + intros w Hw. injection Hw as <-. apply (Hok m Hin).
    + intros m0 w Hm0 Hw. destruct (Hcap m0 w Hm0 Hw) as (Hno & Hid).
      split; [|exact Hid].
      rewrite open_in. intros [->|H].
      * exact (Hid m Hin eq_refl).
      * apply Hno. destruct (listener_activeInfoWindow m); simpl in H.
        -- apply close_in in H. tauto.
        -- exact H.
  - split; [exact Hact|]. simpl. intros m w0 Hm Hw.
    destruct (Hcap m w0 Hm Hw) as (Hno & Hid). split; [|exact Hid].
    rewrite close_in. tauto.
Qed.

Lemma reachable_listeners_stale s : reachable s -> listeners_stale s.
Proof.
  induction 1 as [|s s' Hs IH Hstep].
  - split; [intros w H; discriminate H|intros m w []].
  - exact (listeners_stale_step (reachable_markers_ok Hs) IH Hstep).
Qed.

(** X21. A click, whenever it is delivered, opens the popup of its marker
    and closes no popup that is open: the popup its listener closes is one
    the effect had closed already.  The effect run of the render that the
    click causes closes the popup of the clicked marker again, and no
    other; the component still holds that popup as the active one, and the
    marker that was clicked has been replaced by a new object. *)
Theorem render_after_click_closes_the_popup :
  forall s m displayed,
    reachable s ->
    In m (State.shown s) ->
    State.opened (click m s) = open (infoWindow m) (State.opened s)
    /\ State.opened (syncMarkers displayed (click m s))
       = close (infoWindow m) (State.opened s)
    /\ State.activeInfoWindow (syncMarkers displayed (click m s))
       = Some (infoWindow m)
    /\ (forall m',
          In m' (State.shown (syncMarkers displayed (click m s))) ->
          ident m' <> ident m).
Proof.
  intros s m displayed Hs Hin.
  assert (State.loaded s = true) as Hl.
  { destruct (State.loaded s) eqn:E; [reflexivity|].
    rewrite (shown_needs_map Hs E) in Hin. contradiction. }
  destruct (reachable_listeners_stale Hs) as (_ & Hcap).
  destruct (reachable_markers_ok Hs) as (Heq & _ & Hok & _).
  assert (State.opened (click m s) = open (infoWindow m) (State.opened s))
    as Hclick.
  { unfold click. simpl.
    destruct (listener_activeInfoWindow m) as [w|] eqn:E; simpl;
      [|reflexivity].
    rewrite close_absent; [reflexivity|]. apply (Hcap m w Hin E). }
  split; [exact Hclick|]. split; [|split].
  - unfold syncMarkers.
    change (State.loaded (click m s)) with (State.loaded s). rewrite Hl.
    cbn [negb State.opened].
    change (State.activeInfoWindow (click m s)) with (Some (infoWindow m)).
    rewrite Hclick. apply close_open.
  - unfold syncMarkers, click. simpl. rewrite Hl. reflexivity.
  - intros m' Hm'.
    unfold syncMarkers in Hm'. simpl in Hm'. rewrite Hl in Hm'. simpl in Hm'.
    apply in_app_or in Hm' as [Hm'|Hm'].
    + apply filter_In in Hm' as [Hm' Hf].
      apply negb_true_iff in Hf.
      assert (existsb (Nat.eqb (ident m')) (map ident (State.markers s))
              = true) as Ht
        by (apply existsb_exists; exists (ident m');
            split; [rewrite <- Heq; apply in_map, Hm'|apply Nat.eqb_refl]).
      congruence.
    + assert (In (ident m')
                (map ident
                   (newMarkers displayed (State.fresh s)
                      (Some (infoWindow m))))) as Hid
        by (apply in_map, Hm').
      rewrite newMarkers_idents in Hid. apply in_seq in Hid.
      destruct (Hok m Hin) as (Hlt & _). lia.
Qed.

(** The marker of Abe is clicked while the click on the marker of Sato
    awaits its render: both popups are open, and the render closes the
    second only. *)
Lemma render_after_click_closes_the_popup_witness :
  State.opened (click marker_of_abe clicked) = [1; 0]
  /\ State.opened (syncMarkers [sato; kato; abe] (click marker_of_abe clicked))
     = [0].
Proof.
  destruct (@render_after_click_closes_the_popup clicked marker_of_abe
              [sato; kato; abe] clicked_reachable
              (or_intror (or_introl eq_refl))) as (H1 & H2 & _).
  split; [exact H1|exact H2].
Defined.

(** *** Routes, for any selection *)

Lemma selection_ends (A : Type) (l : list A) :
  2 <= length l -> exists first middle last, l = first :: middle ++ [last].
Proof.
  intros H. destruct l as [|first rest]; [simpl in H; lia|].
  destruct (exists_last (l := rest)) as (middle & last & ->).
  - intros ->. simpl in H. lia.
  - exists first, middle, last. reflexivity.
Qed.

(** X22. Whatever is selected, the routing service is asked if and only
    if the map and the renderer are there and at least two records are
    selected, and then once: from the first selected record to the last,
    with as many waypoints as there are records in between, each of them a
    stop, and with the optimisation of their order switched on. *)
Theorem route_request_shape :
  forall (map directionsRenderer : bool) selected,
    (calculateRoute map directionsRenderer selected = []
     <-> map = false \/ directionsRenderer = false \/ length selected < 2)
    /\ length (calculateRoute map directionsRenderer selected) <= 1
    /\ (forall r,
          In r (calculateRoute map directionsRenderer selected) ->
          length (waypoints r) = length selected - 2
          /\ Forall (fun p => stopover p = true) (waypoints r)
          /\ optimizeWaypoints r = true
          /\ option_map location (hd_error selected) = Some (origin r)
          /\ option_map location
               (nth_error selected (length selected - 1))
             = Some (destination r)).
Proof.
  intros map dr selected.
  destruct (Nat.ltb (length selected) 2) eqn:E.
  - assert (calculateRoute map dr selected = []) as ->
      by (unfold calculateRoute; rewrite E, !orb_true_r; reflexivity).
    apply Nat.ltb_lt in E.
    split; [split; auto|]. split; [simpl; lia|intros r []].
  - apply Nat.ltb_ge in E.
    destruct (selection_ends selected E) as (first & middle & last & ->).
    destruct map, dr.
    2,3,4: (assert (forall b, calculateRoute false b
                                (first :: middle ++ [last]) = [])
              as H0 by reflexivity;
            assert (calculateRoute true false (first :: middle ++ [last]) = [])
              as H1 by (unfold calculateRoute; reflexivity);
            rewrite ?H0, ?H1;
            split; [split; auto|]; split; [simpl; lia|intros r []]).
    unfold calculateRoute.
    replace (Nat.ltb (length (first :: middle ++ [last])) 2) with false
      by (symmetry; apply Nat.ltb_ge; exact E).
    rewrite last_of_selection, slice_middle. simpl.
    split; [|split; [lia|]].
    + split; [discriminate|].
      intros [H|[H|H]]; try discriminate H.
      rewrite length_app in H. simpl in H. lia.
    + intros r [<-|[]]. simpl.
      split; [rewrite length_map, length_app; simpl; lia|].
      split; [apply Forall_forall; intros p Hp;
              apply in_map_iff in Hp as (c & <- & _); reflexivity|].
      split; [reflexivity|]. split; reflexivity.
Qed.

End CustomerMapMore.

(* ================================================================= *)
(** ** More on the form: what each handler changes and whom it asks *)

Module CustomerFormMore.
Import CustomerForm CustomerFormSpec Scenario.

(** A draft with its coordinates left out. *)
Definition without_coordinates (d : PartialCustomer.t) : PartialCustomer.t :=
  PartialCustomer.mk (PartialCustomer.id d) (PartialCustomer.name d)
    (PartialCustomer.postal_code d) (PartialCustomer.address d)
    (PartialCustomer.phone d) (PartialCustomer.email d)
    (PartialCustomer.contract_type d) (PartialCustomer.snow_removal_area d)
    (PartialCustomer.contract_start_date d)
    (PartialCustomer.contract_end_date d) (PartialCustomer.billing_amount d)
    None None (PartialCustomer.created_at d) (PartialCustomer.updated_at d).

(** The part of a draft that no input of the form writes. *)
Definition fixed_part (d : PartialCustomer.t)
    : option jsstring * option jsstring * option jsstring :=
  (PartialCustomer.id d, PartialCustomer.created_at d,
   PartialCustomer.updated_at d).

Lemma geocodeAddress_asks geocoder address :
  geocodings (snd (geocodeAddress geocoder address))
  = match geocoder with Some _ => [address] | None => [] end
  /\ submissions (snd (geocodeAddress geocoder address)) = [].
Proof.
  unfold geocodeAddress. destruct geocoder as [g|]; [|split; reflexivity].
  destruct (g address) as [|[[|[[location|]] rest]|]]; split; reflexivity.
Qed.


Lemma submissions_app done done' :
  submissions (done ++ done') = submissions done ++ submissions done'.
Proof. unfold submissions. apply flat_map_app. Qed.

Lemma handleSubmit_touches_coordinates_only geocoder formData :
  without_coordinates (fst (handleSubmit geocoder formData))
  = without_coordinates formData.
Proof.
  unfold handleSubmit.
  destruct (if_present (PartialCustomer.address formData)) as [address|];
    [|reflexivity].
  destruct (geocodeAddress geocoder address) as [[[la ln]|] done];
    reflexivity.
Qed.


(** X12. When the postal code does not have seven code units, or the
    postal-code service fails or has no result, the handler changes the
    postal code of the draft and nothing else, and does not ask the
    geocoder. *)
Theorem failed_lookup_changes_the_postal_code_only :
  forall geocoder fetch code formData,
    length code <> 7
    \/ fetch (zipcloud ++ code) = fetch_failed
    \/ fetch (zipcloud ++ code) = fetch_json None
    \/ fetch (zipcloud ++ code) = fetch_json (Some []) ->
    fst (handlePostalCodeChange geocoder fetch code formData)
    = PartialCustomer.with_postal_code code formData
    /\ geocodings (snd (handlePostalCodeChange geocoder fetch code formData))
       = [].
Proof.
  intros geocoder fetch code formData H. unfold handlePostalCodeChange.
  destruct (Nat.eqb (length code) 7) eqn:E; [|split; reflexivity].
  apply Nat.eqb_eq in E.
  destruct H as [H|[H|[H|H]]]; [contradiction| | |];
    rewrite H; split; reflexivity.
Qed.

(** The service is down. *)
Lemma failed_lookup_changes_the_postal_code_only_witness :
  fst (handlePostalCodeChange (Some answering_geocoder) (fun _ => fetch_failed)
         (js "0600000") draft_without_coordinates)
  = PartialCustomer.with_postal_code (js "0600000") draft_without_coordinates
  /\ geocodings
       (snd (handlePostalCodeChange (Some answering_geocoder)
               (fun _ => fetch_failed) (js "0600000")
               draft_without_coordinates))
     = [].
Proof.
  exact (@failed_lookup_changes_the_postal_code_only
           (Some answering_geocoder) (fun _ => fetch_failed) (js "0600000")
           draft_without_coordinates (or_intror (or_introl eq_refl))).
Defined.



(** X14. An input to the address field always becomes the address of the
    draft.  The geocoder is asked, once and for that input, only when the
    input has more than five code units; the coordinates change only when
    it answers with a pair, and no other field changes. *)
Theorem address_input_geocodes_long_addresses :
  forall geocoder newAddress formData,
    without_coordinates (fst (handleAddressChange geocoder newAddress formData))
    = without_coordinates (PartialCustomer.with_address newAddress formData)
    /\ geocodings (snd (handleAddressChange geocoder newAddress formData))
       = (if Nat.ltb 5 (length newAddress)
          then match geocoder with Some _ => [newAddress] | None => [] end
          else [])
    /\ (length newAddress <= 5
        \/ fst (geocodeAddress geocoder newAddress) = None ->
        fst (handleAddressChange geocoder newAddress formData)
        = PartialCustomer.with_address newAddress formData)
    /\ (forall la ln,
          5 < length newAddress ->
          fst (geocodeAddress geocoder newAddress) = Some (la, ln) ->
          fst (handleAddressChange geocoder newAddress formData)
          = PartialCustomer.with_coordinates la ln
              (PartialCustomer.with_address newAddress formData)).
Proof.
  intros geocoder newAddress formData. unfold handleAddressChange.
  destruct (Nat.ltb 5 (length newAddress)) eqn:E.
  - apply Nat.ltb_lt in E.
    pose proof (geocodeAddress_asks geocoder newAddress) as [Hg _].
    destruct (geocodeAddress geocoder newAddress) as [coordinates done].
    simpl in Hg. destruct coordinates as [[la ln]|]; simpl; rewrite Hg.
    + split; [reflexivity|]. split; [reflexivity|]. split.
      * intros [H|H]; [lia|discriminate H].
      * intros la' ln' _ H. injection H as <- <-. reflexivity.
    + split; [reflexivity|]. split; [reflexivity|]. split.
      * intros _. reflexivity.
      * intros la' ln' _ H. discriminate H.
  - apply Nat.ltb_ge in E. simpl.
    split; [reflexivity|]. split; [reflexivity|]. split.
    + intros _. reflexivity.
    + intros la ln H. lia.
Qed.

(** *** A sitting at the form *)

Section Editing.
Context {rt : Runtime}.
Variable geocoder : option Geocoder.
Variable fetch : Fetch.

Lemma geocodeAddress_silent address :
  submissions (snd (geocodeAddress geocoder address)) = [].
Proof. apply geocodeAddress_asks. Qed.

Lemma onInput_keeps i formData :
  fixed_part (fst (onInput geocoder fetch i formData)) = fixed_part formData
  /\ (Spec.paired (PartialCustomer.lat formData) (PartialCustomer.lng formData)
      -> Spec.paired
           (PartialCustomer.lat (fst (onInput geocoder fetch i formData)))
           (PartialCustomer.lng (fst (onInput geocoder fetch i formData))))
  /\ submissions (snd (onInput geocoder fetch i formData)) = [].
Proof.
  assert (forall la ln : number, Spec.paired (Some la) (Some ln)) as Hboth
    by (intros la ln; split; discriminate).
  destruct i; simpl; try (split; [reflexivity|split; [tauto|reflexivity]]).
  - unfold handlePostalCodeChange.
    destruct (Nat.eqb (length v) 7);
      [|split; [reflexivity|split; [tauto|reflexivity]]].
    destruct (fetch (zipcloud ++ v)) as [|[[|r rest]|]];
      try (split; [reflexivity|split; [tauto|reflexivity]]).
    pose proof (geocodeAddress_silent
                  (address1 r ++ address2 r ++ address3 r)) as Hs.
    destruct (geocodeAddress geocoder
                (address1 r ++ address2 r ++ address3 r))
      as [[[la ln]|] done]; simpl in *.
    + split; [reflexivity|]. split; [intros _; apply Hboth|exact Hs].
    + split; [reflexivity|]. split; [tauto|exact Hs].
  - unfold handleAddressChange.
    destruct (Nat.ltb 5 (length v));
      [|split; [reflexivity|split; [tauto|reflexivity]]].
    pose proof (geocodeAddress_silent v) as Hs.
    destruct (geocodeAddress geocoder v) as [[[la ln]|] done]; simpl in *.
    + split; [reflexivity|]. split; [intros _; apply Hboth|exact Hs].
    + split; [reflexivity|]. split; [tauto|exact Hs].
Qed.

Lemma edit_keeps inputs :
  forall formData,
    fixed_part (fst (edit geocoder fetch inputs formData))
    = fixed_part formData
    /\ (Spec.paired (PartialCustomer.lat formData)
          (PartialCustomer.lng formData) ->
        Spec.paired
          (PartialCustomer.lat (fst (edit geocoder fetch inputs formData)))
          (PartialCustomer.lng (fst (edit geocoder fetch inputs formData))))
    /\ submissions (snd (edit geocoder fetch inputs formData)) = [].
Proof.
  induction inputs as [|i rest IH]; intros formData; simpl.
  - split; [reflexivity|]. split; [tauto|reflexivity].
  - destruct (onInput_keeps i formData) as (H1 & H2 & H3).
    destruct (onInput geocoder fetch i formData) as [formData' done].
    simpl in H1, H2, H3.
    destruct (IH formData') as (K1 & K2 & K3).
    destruct (edit geocoder fetch rest formData') as [formData'' done'].
    simpl in *. split; [congruence|]. split; [tauto|].
    rewrite submissions_app, H3, K3. reflexivity.
Qed.

Lemma editAndSubmit_keeps_fixed_part inputs formData :
  fixed_part (fst (editAndSubmit geocoder fetch inputs formData))
  = fixed_part formData.
Proof.
  unfold editAndSubmit.
  destruct (edit_keeps inputs formData) as (H1 & _ & _).
  destruct (edit geocoder fetch inputs formData) as [formData' done].
  simpl in H1.
  pose proof (handleSubmit_touches_coordinates_only geocoder formData')
    as Hsame.
  destruct (handleSubmit geocoder formData') as [formData'' done'].
  simpl in *. rewrite <- H1. unfold fixed_part.
  injection Hsame as E1 _ _ _ _ _ _ _ _ _ _ E2 E3. congruence.
Qed.

(** X15. Whatever the user types into the form before submitting, and
    whatever the two services answer, the draft that is handed over carries
    the identifier and the two time stamps the form was opened with; its
    coordinates are both present or both absent if they were so at the
    start; and it is handed over exactly once, at the end. *)
Theorem sitting_keeps_identity :
  forall inputs formData,
    fixed_part (fst (editAndSubmit geocoder fetch inputs formData))
    = fixed_part formData
    /\ (Spec.paired (PartialCustomer.lat formData)
          (PartialCustomer.lng formData) ->
        Spec.paired
          (PartialCustomer.lat
             (fst (editAndSubmit geocoder fetch inputs formData)))
          (PartialCustomer.lng
             (fst (editAndSubmit geocoder fetch inputs formData))))
    /\ submissions (snd (editAndSubmit geocoder fetch inputs formData))
       = [fst (editAndSubmit geocoder fetch inputs formData)].
Proof.
  intros inputs formData. unfold editAndSubmit.
  destruct (edit_keeps inputs formData) as (H1 & H2 & H3).
  destruct (edit geocoder fetch inputs formData) as [formData' done].
  simpl in H1, H2, H3.
  pose proof (submission_always_happens geocoder formData') as Hsub.
  pose proof (handleSubmit_touches_coordinates_only geocoder formData')
    as Hsame.
  destruct (handleSubmit geocoder formData') as [formData'' done'] eqn:E.
  simpl in *. split; [|split].
  - rewrite <- H1. unfold fixed_part.
    injection Hsame as E1 _ _ _ _ _ _ _ _ _ _ E2 E3. congruence.
  - intros Hp. specialize (H2 Hp).
    unfold handleSubmit in E.
    destruct (if_present (PartialCustomer.address formData')) as [a|].
    + destruct (geocodeAddress geocoder a) as [[[la ln]|] d].
      * injection E as <- _. simpl. split; discriminate.
      * injection E as <- _. exact H2.
    + injection E as <- _. exact H2.
  - rewrite submissions_app, H3, Hsub. reflexivity.
Qed.
End Editing.

End CustomerFormMore.

(* ================================================================= *)
(** ** More on the record store: update, deletion, and what it holds *)

Module AppMore.
Import App AppSpec CustomerMapSpec Scenario.

Lemma String_eqb_refl a : String_eqb a a = true.
Proof. apply String_eqb_eq. reflexivity. Qed.

Lemma String_eqb_neq a b : String_eqb a b = false <-> a <> b.
Proof.
  split.
  - intros H E. apply String_eqb_eq in E. congruence.
  - intros H. destruct (String_eqb a b) eqn:E; [|reflexivity].
    apply String_eqb_eq in E. contradiction.
Qed.



(** X17. A confirmed deletion removes exactly the records that carry the
    identifier of the record handed over, keeps the others in their order and
    clears the selection; a deletion that is not confirmed changes
    nothing. *)
Theorem deletion_removes_by_identifier :
  forall customer s,
    (forall c,
       In c (customers (handleDelete true customer s))
       <-> In c (customers s) /\ Customer.id c <> Customer.id customer)
    /\ (forall a b,
          Spec.before a b (customers (handleDelete true customer s)) ->
          Spec.before a b (customers s))
    /\ (forall a b,
          Spec.before a b (customers s) ->
          Customer.id a <> Customer.id customer ->
          Customer.id b <> Customer.id customer ->
          Spec.before a b (customers (handleDelete true customer s)))
    /\ selectedCustomer (handleDelete true customer s) = None
    /\ showForm (handleDelete true customer s) = showForm s
    /\ view (handleDelete true customer s) = view s
    /\ handleDelete false customer s = s.
Proof.
  intros customer s. unfold handleDelete. simpl.
  split; [|split; [|split]].
  - intros c. rewrite filter_In, negb_true_iff, String_eqb_neq. reflexivity.
  - intros a b. apply before_filter.
  - intros a b H Ha Hb.
    apply filter_before; [exact H| |];
      apply negb_true_iff, String_eqb_neq; assumption.
  - repeat split.
Qed.

(** X18. Creating a record and deleting it again gives back the records
    the store held, provided the identifier drawn for the new record is
    carried by none of them. *)
Theorem create_then_delete_restores_the_store :
  forall data s w,
    selectedCustomer s = None ->
    (forall c, In c (customers s) -> Customer.id c <> random w (draws w)) ->
    exists c,
      customers (fst (handleSubmit data s w)) = customers s ++ [c]
      /\ Customer.id c = random w (draws w)
      /\ customers (handleDelete true c (fst (handleSubmit data s w)))
         = customers s.
Proof.
  intros data s w Hnew Hfresh. unfold handleSubmit. rewrite Hnew. simpl.
  eexists. split; [reflexivity|]. split; [reflexivity|].
  unfold handleDelete. simpl. rewrite filter_app. simpl.
  rewrite String_eqb_refl. simpl. rewrite app_nil_r.
  apply CustomerListMore.filter_all. intros c Hc.
  apply negb_true_iff, String_eqb_neq, Hfresh, Hc.
Qed.

(** A record is created in a store that holds two records, and deleted
    again. *)
Lemma create_then_delete_restores_the_store_witness :
  exists c,
    customers (fst (handleSubmit draft_without_coordinates store_of_two
                      ticking_world)) = [sato; kato; c]
    /\ Customer.id c = js "k3j9x0q2a"
    /\ customers
         (handleDelete true c
            (fst (handleSubmit draft_without_coordinates store_of_two
                    ticking_world))) = [sato; kato].
Proof.
  refine (@create_then_delete_restores_the_store draft_without_coordinates
            store_of_two ticking_world eq_refl _).
  intros c [<-|[<-|[]]] H; vm_compute in H; discriminate H.
Defined.

End AppMore.

(* ================================================================= *)
(** ** The form, the store and the map together *)

Module Composition.
Import CustomerMapSpec Scenario.

Lemma updated_keeps_both selected data now :
  Spec.geocoded selected -> Spec.geocoded (App.updated selected data now).
Proof.
  unfold Spec.geocoded. simpl. intros [H1 H2].
  destruct (PartialCustomer.lat data), (PartialCustomer.lng data);
    split; try discriminate; assumption.
Qed.

(** The records of the store, and the selected record, have both
    coordinates. *)
Definition all_located (s : App.State) : Prop :=
  Forall Spec.geocoded (App.customers s)
  /\ (forall c, App.selectedCustomer s = Some c -> Spec.geocoded c).

Lemma all_located_step s s' :
  all_located s -> App.step s s' -> all_located s'.
Proof.
  intros [Hall Hsel] Hstep.
  assert (forall c, In c (App.customers s) -> Spec.geocoded c) as Hin
    by (apply Forall_forall, Hall).
  destruct Hstep as [s data w|s c Hc|s c confirmed Hc|s c Hc|s c Hc|s|s|s v].
  - unfold App.handleSubmit.
    destruct (App.selectedCustomer s) as [selected|] eqn:E; simpl.
    + split; [|intros c H; discriminate H].
      apply Forall_forall. intros c Hc.
      apply in_map_iff in Hc as (c0 & <- & Hc0).
      destruct (String_eqb (Customer.id c0) (Customer.id selected)).
      * apply updated_keeps_both, Hsel. reflexivity.
      * apply Hin, Hc0.
    + split; [|intros c H; discriminate H].
      apply Forall_app. split; [exact Hall|]. constructor; [|constructor].
      split; discriminate.
  - split; [exact Hall|]. simpl. intros c' H. injection H as <-.
    apply Hin, Hc.
  - unfold App.handleDelete. destruct confirmed; [|split; assumption].
    simpl. split; [|intros c' H; discriminate H].
    apply Forall_forall. intros c' H. apply filter_In in H. apply Hin. tauto.
  - split; [exact Hall|]. simpl. intros c' H. injection H as <-.
    apply Hin, Hc.
  - split; [exact Hall|]. simpl. intros c' H. injection H as <-.
    apply Hin, Hc.
  - split; [exact Hall|]. simpl. intros c' H. discriminate H.
  - split; [exact Hall|]. simpl. intros c' H. discriminate H.
  - split; [exact Hall|exact Hsel].
Qed.

Lemma reachable_all_located s : App.reachable s -> all_located s.
Proof.
  induction 1 as [|s s' _ IH Hstep].
  - split; [constructor|intros c H; discriminate H].
  - exact (all_located_step IH Hstep).
Qed.

(** X19. Every record the application can come to hold has both
    coordinates, whether a geocoder ever answered or not; so once the map
    is loaded, synchronisation creates a marker for every displayed record,
    in the order of the display. *)
Theorem every_displayed_record_gets_a_marker :
  forall (rt : Runtime) s searchQuery filters m,
    App.reachable s ->
    CustomerMap.State.loaded m = true ->
    Forall Spec.geocoded (App.customers s)
    /\ map CustomerMap.listener_customer
         (CustomerMap.State.markers
            (CustomerMap.syncMarkers
               (CustomerMap.filteredCustomers (App.customers s) searchQuery
                  filters) m))
       = CustomerMap.filteredCustomers (App.customers s) searchQuery filters.
Proof.
  intros rt s searchQuery filters m Hs Hm.
  destruct (reachable_all_located Hs) as [Hall _].
  split; [exact Hall|].
  unfold CustomerMap.syncMarkers. rewrite Hm. simpl.
  rewrite newMarkers_customers.
  apply CustomerListMore.filter_all. intros c Hc.
  apply not_null_geocoded.
  unfold CustomerMap.filteredCustomers in Hc. apply filter_In in Hc.
  rewrite Forall_forall in Hall. apply Hall. tauto.
Qed.

(** A record is created from a draft that was never geocoded, and the map
    shows it. *)
Lemma every_displayed_record_gets_a_marker_witness :
  length
    (CustomerMap.State.markers
       (CustomerMap.syncMarkers
          (@CustomerMap.filteredCustomers basic_runtime
             (App.customers
                (fst (App.handleSubmit draft_without_coordinates App.initial
                        ticking_world)))
             [] no_filters)
          (CustomerMap.mapLoaded CustomerMap.State.initial)))
  = 1.
Proof.
  pose proof
    (proj2 (@every_displayed_record_gets_a_marker basic_runtime
              (fst (App.handleSubmit draft_without_coordinates App.initial
                      ticking_world))
              [] no_filters
              (CustomerMap.mapLoaded CustomerMap.State.initial)
              (App.reachable_step App.reachable_initial
                 (App.step_submit App.initial draft_without_coordinates
                    ticking_world))
              eq_refl)) as H.
  rewrite <- (length_map CustomerMap.listener_customer).
  rewrite H. reflexivity.
Defined.

Section Editing.
Context {rt : Runtime}.
Variable geocoder : option CustomerForm.Geocoder.
Variable fetch : CustomerForm.Fetch.

(** X20. A record that is opened in the form, edited in whatever way and
    submitted keeps its identifier and the time of its creation, and gets
    the time of the update as its last-update time: the identifiers in the
    store stay as they were, position by position, and every record of the
    store afterwards is either a record it held before, with another
    identifier, or a record with the identifier and the creation time of the
    edited one, stamped with the time of the update. *)
Theorem editing_keeps_the_identifier :
  forall inputs s w c,
    App.selectedCustomer s = Some c ->
    map Customer.id
      (App.customers
         (fst (App.handleSubmit
                 (fst (CustomerForm.editAndSubmit geocoder fetch inputs
                         (App.initialData s)))
                 s w)))
    = map Customer.id (App.customers s)
    /\ (forall x,
          In x (App.customers
                  (fst (App.handleSubmit
                          (fst (CustomerForm.editAndSubmit geocoder fetch
                                  inputs (App.initialData s)))
                          s w))) ->
          (In x (App.customers s) /\ Customer.id x <> Customer.id c)
          \/ (Customer.id x = Customer.id c
              /\ Customer.created_at x = Customer.created_at c
              /\ Customer.updated_at x = App.clock w (App.reads w))).
Proof.
  intros inputs s w c Hsel.
  pose proof (CustomerFormMore.editAndSubmit_keeps_fixed_part geocoder fetch
                inputs (App.initialData s)) as Hfix.
  set (data := fst (CustomerForm.editAndSubmit geocoder fetch inputs
                      (App.initialData s))) in *.
  clearbody data. unfold App.initialData in Hfix. rewrite Hsel in Hfix.
  unfold CustomerFormMore.fixed_part in Hfix. simpl in Hfix.
  injection Hfix as Hid Hcreated _.
  unfold App.handleSubmit. rewrite Hsel. simpl. split.
  - rewrite map_map. apply map_ext_in. intros x _.
    destruct (String_eqb (Customer.id x) (Customer.id c)) eqn:E;
      [|reflexivity].
    apply String_eqb_eq in E. simpl. rewrite Hid. simpl. congruence.
  - intros x Hx. apply in_map_iff in Hx as (x0 & <- & Hx0).
    destruct (String_eqb (Customer.id x0) (Customer.id c)) eqn:E.
    + right. simpl. rewrite Hid, Hcreated. simpl. auto.
    + left. split; [exact Hx0|].
      intros H. apply String_eqb_eq in H. congruence.
Qed.
End Editing.

(** Sato is opened in the form, gets a new phone number, and is
    submitted. *)
Lemma editing_keeps_the_identifier_witness :
  map Customer.id
    (App.customers
       (fst (App.handleSubmit
               (fst (@CustomerForm.editAndSubmit basic_runtime
                       (Some failing_geocoder) answering_fetch
                       [CustomerForm.PhoneInput (js "0123")]
                       (App.initialData
                          {| App.view := App.list_view;
                             App.showForm := true;
                             App.selectedCustomer := Some sato;
                             App.customers := [sato; kato] |})))
               {| App.view := App.list_view;
                  App.showForm := true;
                  App.selectedCustomer := Some sato;
                  App.customers := [sato; kato] |}
               ticking_world)))
  = [js "c1"; js "c2"].
Proof.
  exact (proj1 (@editing_keeps_the_identifier basic_runtime
                  (Some failing_geocoder) answering_fetch
                  [CustomerForm.PhoneInput (js "0123")]
                  {| App.view := App.list_view;
                     App.showForm := true;
                     App.selectedCustomer := Some sato;
                     App.customers := [sato; kato] |}
                  ticking_world sato eq_refl)).
Defined.

End Composition.
